(** * pymodular / modules / linalg.py

    A shallow embedding of the matrix classifier [auto_determine_solver]
    and of the linear-system node [LinSolve] (its [_prepare], [_response]
    and [_sensitivity] methods), followed by the properties of the
    specification that concern them.

    Numbers: numpy's float64 and complex128 values are modelled by exact
    rationals ([Qc]) and pairs of rationals; an array carries its dtype,
    because the code branches on [np.iscomplexobj], which looks at the
    dtype and not at the values. *)

From Stdlib Require Import String.
From Stdlib Require Import QArith Qcanon List Bool Arith Lia Lqa Permutation.
Import ListNotations.

Set Implicit Arguments.

Local Open Scope Qc_scope.

(** ** Scalars *)

Definition q (n : Z) (d : positive) : Qc := Q2Qc (n # d).

Record complex : Type := Cplx { re : Qc; im : Qc }.

Definition RtoC (x : Qc) : complex := Cplx x 0.
Definition c0 : complex := RtoC 0.
Definition ci : complex := Cplx 0 1.

Definition cadd (a b : complex) : complex := Cplx (re a + re b) (im a + im b).
Definition cneg (a : complex) : complex := Cplx (- re a) (- im a).
Definition csub (a b : complex) : complex := cadd a (cneg b).
Definition cmul (a b : complex) : complex :=
  Cplx (re a * re b - im a * im b) (re a * im b + im a * re b).
Definition cconj (a : complex) : complex := Cplx (re a) (- im a).
Definition creal (a : complex) : complex := RtoC (re a).
Definition cimag (a : complex) : complex := RtoC (im a).
(** squared modulus *)
Definition cabs2 (a : complex) : Qc := re a * re a + im a * im a.
Definition cdiv (a b : complex) : complex :=
  let n := cmul a (cconj b) in Cplx (re n / cabs2 b) (im n / cabs2 b).

Definition Qc_leb (x y : Qc) : bool := Qle_bool x y.
Definition Qc_ltb (x y : Qc) : bool := negb (Qle_bool y x).

Definition ceqb (a b : complex) : bool :=
  Qc_eq_bool (re a) (re b) && Qc_eq_bool (im a) (im b).

(** numpy orders complex numbers lexicographically (real part first);
    on a float64 array the imaginary parts are all zero and this is the
    usual order. *)
Definition cgt0 (a : complex) : bool :=
  Qc_ltb 0 (re a) || (Qc_eq_bool (re a) 0 && Qc_ltb 0 (im a)).
Definition clt0 (a : complex) : bool :=
  Qc_ltb (re a) 0 || (Qc_eq_bool (re a) 0 && Qc_ltb (im a) 0).

(** ** Arrays *)

Inductive dtype : Type := float64 | complex128.

Definition dtype_eqb (a b : dtype) : bool :=
  match a, b with
  | float64, float64 | complex128, complex128 => true
  | _, _ => false
  end.

(** numpy's type promotion, on the two dtypes that occur *)
Definition promote (a b : dtype) : dtype :=
  match a, b with
  | float64, float64 => float64
  | _, _ => complex128
  end.

(** A dense ndarray of one or two dimensions (a 2-D array is the list of
    its rows). *)
Inductive ndarray : Type :=
| Vec (dt : dtype) (v : list complex)
| Mat (dt : dtype) (rows : list (list complex)).

Definition arr_dtype (a : ndarray) : dtype :=
  match a with Vec dt _ | Mat dt _ => dt end.

Definition ndim (a : ndarray) : nat :=
  match a with Vec _ _ => 1 | Mat _ _ => 2 end.

(** The system matrix: a dense 2-D ndarray or a scipy sparse matrix; both
    have a dtype, a shape and entries. *)
Record matrix : Type := Matrix {
  sparse : bool;
  mdtype : dtype;
  nrows : nat;
  ncols : nat;
  rows : list (list complex)
}.

Definition entry (A : matrix) (i j : nat) : complex :=
  nth j (nth i (rows A) []) c0.

Definition dense (dt : dtype) (n m : nat) (r : list (list complex)) : matrix :=
  Matrix false dt n m r.

Definition list_eqb {T} (eqb : T -> T -> bool) : list T -> list T -> bool :=
  fix go (l1 l2 : list T) : bool :=
    match l1, l2 with
    | [], [] => true
    | x :: l1', y :: l2' => eqb x y && go l1' l2'
    | _, _ => false
    end.

Definition matrix_eqb (A B : matrix) : bool :=
  Bool.eqb (sparse A) (sparse B) && dtype_eqb (mdtype A) (mdtype B)
  && Nat.eqb (nrows A) (nrows B) && Nat.eqb (ncols A) (ncols B)
  && list_eqb (list_eqb ceqb) (rows A) (rows B).

Definition ndarray_eqb (a b : ndarray) : bool :=
  match a, b with
  | Vec d1 v1, Vec d2 v2 => dtype_eqb d1 d2 && list_eqb ceqb v1 v2
  | Mat d1 r1, Mat d2 r2 => dtype_eqb d1 d2 && list_eqb (list_eqb ceqb) r1 r2
  | _, _ => false
  end.

(** *** The numpy / scipy functions the module calls *)

(** [np.iscomplexobj]: decided by the dtype *)
Definition dt_iscomplex (dt : dtype) : bool :=
  match dt with complex128 => true | float64 => false end.
Definition iscomplexobj (a : ndarray) : bool := dt_iscomplex (arr_dtype a).
Definition isrealobj (a : ndarray) : bool := negb (iscomplexobj a).

(** [sps.issparse], and [np.iscomplexobj] on the matrix *)
Definition issparse_of (A : matrix) : bool := sparse A.
Definition mat_iscomplex (A : matrix) : bool := dt_iscomplex (mdtype A).

Fixpoint imap_from {S T} (k : nat) (f : nat -> S -> T) (l : list S) : list T :=
  match l with
  | [] => []
  | x :: l' => f k x :: imap_from (Datatypes.S k) f l'
  end.
Definition imap {S T} (f : nat -> S -> T) (l : list S) : list T := imap_from 0 f l.

(** [np.tril(A)] keeps the entries with [j <= i], [np.triu(A)] those
    with [i <= j]; the others become zero. *)
Definition tril (r : list (list complex)) : list (list complex) :=
  imap (fun i row => imap (fun j x => if Nat.leb j i then x else c0) row) r.
Definition triu (r : list (list complex)) : list (list complex) :=
  imap (fun i row => imap (fun j x => if Nat.leb i j then x else c0) row) r.

(** [A.diagonal()] *)
Definition diagonal (A : matrix) : list complex :=
  map (fun i => entry A i i) (seq 0 (Nat.min (nrows A) (ncols A))).

Definition atol : Qc := q 1 100000000.
Definition rtol : Qc := q 1 100000.

(** [np.isclose(a, b)]: [|a - b| <= atol + rtol * |b|] with numpy's default
    tolerances.  With [d2 = |a-b|^2] and [m2 = |b|^2] this is
    [d2 - atol^2 - rtol^2 m2 <= 2 atol rtol |b|], that is, the left side
    is not positive or its square is at most [4 atol^2 rtol^2 m2]: the
    same test without a square root. *)
Definition isclose (a b : complex) : bool :=
  let d2 := cabs2 (csub a b) in
  let m2 := cabs2 b in
  let l := d2 - atol * atol - rtol * rtol * m2 in
  Qc_leb l 0 || Qc_leb (l * l) (q 4 1 * (atol * atol) * (rtol * rtol) * m2).

Fixpoint all2 {S T} (p : S -> T -> bool) (l1 : list S) (l2 : list T) : bool :=
  match l1, l2 with
  | x :: l1', y :: l2' => p x y && all2 p l1' l2'
  | _, _ => true
  end.

(** [np.allclose] on two arrays of the same shape *)
Definition allclose (r1 r2 : list (list complex)) : bool :=
  all2 (all2 isclose) r1 r2.

(** [np.alltrue(d > 0)] and [np.alltrue(d < 0)]; true on an empty array *)
Definition all_gt0 (d : list complex) : bool := forallb cgt0 d.
Definition all_lt0 (d : list complex) : bool := forallb clt0 d.

(** the test of lines 91 and 102 *)
Definition diag_uniform_sign (A : matrix) : bool :=
  all_gt0 (diagonal A) || all_lt0 (diagonal A).

(** the flags lines 50 and 55 compute when no override is given *)
Definition lower_triangular_detected (A : matrix) : bool :=
  if issparse_of A then false else allclose (rows A) (tril (rows A)).
Definition upper_triangular_detected (A : matrix) : bool :=
  if issparse_of A then false else allclose (rows A) (triu (rows A)).

(** ** Results and exceptions *)

Inductive exception : Type :=
| AssertionError (msg : string)
| AttributeError
| ValueError
| SingularMatrixError
| NumericalSolveError.

Inductive result (T : Type) : Type :=
| Ok (x : T)
| Raise (e : exception).
Arguments Ok {T} x.
Arguments Raise {T} e.

(** ** The solver classes the classifier can instantiate

    The constructor arguments the classifier passes are kept. *)
Inductive Solver : Type :=
| SolverDenseQR
| SolverDiagonal
| SolverSparsePardiso (symmetric hermitian : bool) (positive_definite : option bool)
| SolverSparseCholeskyScikit
| SolverSparseCholeskyCVXOPT
| SolverSparseLU
| SolverDenseCholesky
| SolverDenseLDL (hermitian : bool)
| SolverDenseLU.

(** The solver families of the specification (4.3). *)
Inductive family : Type :=
| FamDiagonal | FamTriangular | FamLU | FamCholesky | FamLDL | FamQR | FamSparseDirect.

Definition family_of (s : Solver) : family :=
  match s with
  | SolverDenseQR => FamQR
  | SolverDiagonal => FamDiagonal
  | SolverSparsePardiso _ _ _ => FamSparseDirect
  | SolverSparseCholeskyScikit | SolverSparseCholeskyCVXOPT | SolverDenseCholesky => FamCholesky
  | SolverSparseLU | SolverDenseLU => FamLU
  | SolverDenseLDL _ => FamLDL
  end.

(** ** What the module imports from the rest of the package

    [matrix_is_diagonal], [matrix_is_symmetric] and [matrix_is_hermitian]
    and the [defined] class attributes of the optional sparse back ends
    are not part of [linalg.py]; the classifier is modelled over any
    choice of them. *)
Class Pymodular : Type := {
  matrix_is_diagonal : matrix -> bool;
  matrix_is_symmetric : matrix -> bool;
  matrix_is_hermitian : matrix -> bool;
  SolverSparsePardiso_defined : bool;
  SolverSparseCholeskyScikit_defined : bool;
  SolverSparseCholeskyCVXOPT_defined : bool
}.

(** ** [auto_determine_solver] *)

Section Classifier.
Context {P : Pymodular}.

(** [x if x is not None else d] *)
Definition or_detect (o : option bool) (d : bool) : bool :=
  match o with Some b => b | None => d end.

(** Lines 63-81: the hermitian and symmetric flags after the overrides
    and the detection. *)
Definition symmetry_flags (A : matrix) (ishermitian issymmetric : option bool)
  : result (bool * bool) :=
  let iscomplex := mat_iscomplex A in
  if iscomplex then
    let ishermitian := or_detect ishermitian (matrix_is_hermitian A) in
    let issymmetric := or_detect issymmetric (matrix_is_symmetric A) in
    Ok (ishermitian, issymmetric)
  else
    match ishermitian, issymmetric with
    | None, None =>
        let issymmetric := matrix_is_symmetric A in
        Ok (issymmetric, issymmetric)
    | Some h, Some s =>
        if Bool.eqb h s then Ok (h, s)
        else Raise (AssertionError
               "For real-valued matrices, symmetry and hermitian must be equal"%string)
    | None, Some s => Ok (s, s)
    | Some h, None => Ok (h, h)
    end.

(** Lines 83-97 *)
Definition select_sparse (A : matrix) (ishermitian issymmetric : bool)
  (ispositivedefinite : option bool) : Solver :=
  if SolverSparsePardiso_defined then
    SolverSparsePardiso issymmetric ishermitian ispositivedefinite
  else
    let default := SolverSparseLU in
    if ishermitian then
      if diag_uniform_sign A then
        if SolverSparseCholeskyScikit_defined then SolverSparseCholeskyScikit
        else if SolverSparseCholeskyCVXOPT_defined then SolverSparseCholeskyCVXOPT
        else default
      else default
    else default.

(** Lines 99-110 *)
Definition select_dense (A : matrix) (ishermitian issymmetric : bool) : Solver :=
  if ishermitian then
    if diag_uniform_sign A then SolverDenseCholesky
    else SolverDenseLDL ishermitian
  else if issymmetric then SolverDenseLDL ishermitian
  else SolverDenseLU.

Definition auto_determine_solver (A : matrix)
  (isdiagonal islowertriangular isuppertriangular
   ishermitian issymmetric ispositivedefinite : option bool) : result Solver :=
  let issparse := issparse_of A in
  let issquare := Nat.eqb (nrows A) (ncols A) in
  if negb issquare then
    (* for a sparse matrix a SparseEfficiencyWarning object is built and
       dropped: nothing is raised and nothing is warned *)
    Ok SolverDenseQR
  else
  let isdiagonal := or_detect isdiagonal (matrix_is_diagonal A) in
  if isdiagonal then Ok SolverDiagonal
  else
  (* the two triangular flags only guard the construction of a
     WarningMessage object, which is dropped *)
  let islowertriangular :=
    or_detect islowertriangular (lower_triangular_detected A) in
  let isuppertriangular :=
    or_detect isuppertriangular (upper_triangular_detected A) in
  let ispermutedtriangular := false in
  match symmetry_flags A ishermitian issymmetric with
  | Raise e => Raise e
  | Ok (ishermitian, issymmetric) =>
      if issparse then Ok (select_sparse A ishermitian issymmetric ispositivedefinite)
      else Ok (select_dense A ishermitian issymmetric)
  end.

End Classifier.

(** ** numpy operations of [LinSolve._sensitivity] *)

Definition arr_map (f : complex -> complex) (a : ndarray) : ndarray :=
  match a with
  | Vec dt v => Vec dt (map f v)
  | Mat dt r => Mat dt (map (map f) r)
  end.

Definition set_dtype (dt : dtype) (a : ndarray) : ndarray :=
  match a with
  | Vec _ v => Vec dt v
  | Mat _ r => Mat dt r
  end.

(** unary minus and [np.conj] keep the dtype; [np.real] and [np.imag]
    return float64 arrays *)
Definition np_neg (a : ndarray) : ndarray := arr_map cneg a.
Definition np_conj (a : ndarray) : ndarray := arr_map cconj a.
Definition np_real (a : ndarray) : ndarray := set_dtype float64 (arr_map creal a).
Definition np_imag (a : ndarray) : ndarray := set_dtype float64 (arr_map cimag a).

Definition flatten (a : ndarray) : list complex :=
  match a with
  | Vec _ v => v
  | Mat _ r => concat r
  end.

(** the outer product of two lists: entry (i, j) is [a_i * b_j] *)
Definition outer (a b : list complex) : list (list complex) :=
  map (fun x => map (fun y => cmul x y) b) a.

(** [np.outer(a, b)] flattens its arguments *)
Definition np_outer (a b : ndarray) : ndarray :=
  Mat (promote (arr_dtype a) (arr_dtype b)) (outer (flatten a) (flatten b)).

Fixpoint dot (x y : list complex) : complex :=
  match x, y with
  | a :: x', b :: y' => cadd (cmul a b) (dot x' y')
  | _, _ => c0
  end.

Definition width (r : list (list complex)) : nat :=
  match r with [] => 0%nat | row :: _ => length row end.

(** [np.einsum("iB,jB->ij", X, Y)]: entry (i, j) is the sum over [B] of
    [X[i,B] * Y[j,B]]; both operands must be 2-D with the same number of
    columns. *)
Definition einsum_iB_jB_ij (X Y : ndarray) : result ndarray :=
  match X, Y with
  | Mat d1 rx, Mat d2 ry =>
      if Nat.eqb (width rx) (width ry)
      then Ok (Mat (promote d1 d2) (map (fun xi => map (fun yj => dot xi yj) ry) rx))
      else Raise ValueError
  | _, _ => Raise ValueError
  end.

(** [DyadCarrier(u, v)]: the two lists of vectors it is built from (a
    single array counts as a list of one). *)
Record DyadCarrier : Type := mkDyadCarrier {
  dyad_u : list ndarray;
  dyad_v : list ndarray
}.

(** The matrix a carrier of 1-D vectors stands for: the sum over [k] of
    the outer products [u_k (x) v_k].  (What the class does with 2-D
    arrays is not modelled.) *)
Definition madd (r1 r2 : list (list complex)) : list (list complex) :=
  map (fun p => map (fun xy => cadd (fst xy) (snd xy)) (combine (fst p) (snd p)))
      (combine r1 r2).

Definition vector_of (a : ndarray) : option (list complex) :=
  match a with
  | Vec _ v => Some v
  | Mat _ _ => None
  end.

Definition dyad (u v : ndarray) : option (list (list complex)) :=
  match vector_of u, vector_of v with
  | Some a, Some b => Some (outer a b)
  | _, _ => None
  end.

Fixpoint dyad_sum (us vs : list ndarray) : option (list (list complex)) :=
  match us, vs with
  | [u], [v] => dyad u v
  | u :: us', v :: vs' =>
      match dyad u v, dyad_sum us' vs' with
      | Some m1, Some m => Some (madd m1 m)
      | _, _ => None
      end
  | _, _ => None
  end.

Definition todense (d : DyadCarrier) : option (list (list complex)) :=
  dyad_sum (dyad_u d) (dyad_v d).

(** the matrix sensitivity: a dense array or a dyad carrier *)
Inductive dmat_t : Type :=
| Dense (a : ndarray)
| Dyad (d : DyadCarrier).

(** ** The solver objects

    The solver classes and the caching wrapper [LDAWrapper] are imported
    from the package and are not part of [linalg.py]; they are modelled
    from the specification (4.3 and 4.4). *)

(** What the specification leaves open: the numerics of the solver
    families other than the diagonal one, and the wrapper's test of linear
    dependence (it returns the scalar factor, with its dtype). *)
Class SolverNumerics : Type := {
  family_update : Solver -> matrix -> result unit;
  family_solve : Solver -> matrix -> ndarray -> result ndarray;
  family_adjoint : Solver -> matrix -> ndarray -> result ndarray;
  linearly_dependent : Qc -> ndarray -> ndarray -> option (dtype * complex)
}.

(** a solver instance: its class and the matrix it was last updated with *)
Record solver_state : Type := mkSolver {
  kind : Solver;
  factored : option matrix
}.

Definition new_solver (k : Solver) : solver_state := mkSolver k None.

Fixpoint zip_with {S T U} (f : S -> T -> U) (l1 : list S) (l2 : list T) : list U :=
  match l1, l2 with
  | x :: l1', y :: l2' => f x y :: zip_with f l1' l2'
  | _, _ => []
  end.

(** Modelled from the spec: the diagonal solver is missing from the
    sources.  "Diagonal -> diagonal solver (O(n) solve, trivial adjoint)";
    [factorize] "fails with SingularMatrixError if the matrix is exactly
    singular (where cheaply detectable)"; [solve] "solves A x = rhs for one
    or more right-hand-side columns"; [adjoint_solve] "reuses the forward
    factorization directly for symmetric/Hermitian A, since A^T = A". *)
Definition diag_factorize (A : matrix) : result unit :=
  if existsb (fun d => ceqb d c0) (diagonal A) then Raise SingularMatrixError
  else Ok tt.

Definition diag_solve (A : matrix) (rhs : ndarray) : result ndarray :=
  let d := diagonal A in
  match rhs with
  | Vec dt v =>
      if Nat.eqb (length v) (length d)
      then Ok (Vec (promote dt (mdtype A)) (zip_with cdiv v d))
      else Raise ValueError
  | Mat dt r =>
      if Nat.eqb (length r) (length d)
      then Ok (Mat (promote dt (mdtype A))
                 (zip_with (fun row di => map (fun x => cdiv x di) row) r d))
      else Raise ValueError
  end.

Definition diag_adjoint (A : matrix) (rhs : ndarray) : result ndarray :=
  diag_solve A rhs.

(** Modelled from the spec: [LDAWrapper] is missing from the sources.
    It wraps a solver, has a "configurable relative tolerance, default
    ~1e-5", and remembers the right-hand sides and solutions of the
    adjoint solves made against the current factorization. *)
Record LDAWrapper : Type := mkLDA {
  lda_solver : solver_state;
  lda_tol : Qc;
  lda_adjoint_cache : list (ndarray * ndarray)
}.

Definition LDAWrapper_default_tol : Qc := q 1 100000.

(** [LDAWrapper(solver, tol=...)]; [None] stands for an argument that is
    not passed *)
Definition LDAWrapper_init (s : solver_state) (tol : option Qc) : LDAWrapper :=
  mkLDA s (match tol with Some t => t | None => LDAWrapper_default_tol end) [].

(** [self.solver] of the node: a bare solver or an [LDAWrapper] *)
Inductive solver_obj : Type :=
| Plain (s : solver_state)
| Wrapped (w : LDAWrapper).

Definition np_scale (k : dtype * complex) (x : ndarray) : ndarray :=
  set_dtype (promote (fst k) (arr_dtype x)) (arr_map (cmul (snd k)) x).

Section Solvers.
Context {N : SolverNumerics}.

Definition solver_update (s : solver_state) (A : matrix) : result solver_state :=
  match (match kind s with
         | SolverDiagonal => diag_factorize A
         | k => family_update k A
         end) with
  | Ok _ => Ok (mkSolver (kind s) (Some A))
  | Raise e => Raise e
  end.

Definition solver_solve (s : solver_state) (rhs : ndarray) : result ndarray :=
  match factored s with
  | None => Raise AttributeError
  | Some A =>
      match kind s with
      | SolverDiagonal => diag_solve A rhs
      | k => family_solve k A rhs
      end
  end.

Definition solver_adjoint (s : solver_state) (rhs : ndarray) : result ndarray :=
  match factored s with
  | None => Raise AttributeError
  | Some A =>
      match kind s with
      | SolverDiagonal => diag_adjoint A rhs
      | k => family_adjoint k A rhs
      end
  end.

(** Modelled from the spec (4.4): [update] "re-factorizes only if the
    matrix differs (by identity or value) from the last factorized
    matrix"; "the dependency cache is invalidated whenever the
    underlying factorization changes". *)
Definition lda_update (w : LDAWrapper) (A : matrix) : result LDAWrapper :=
  match factored (lda_solver w) with
  | Some A0 =>
      if matrix_eqb A0 A then Ok w
      else match solver_update (lda_solver w) A with
           | Ok s => Ok (mkLDA s (lda_tol w) [])
           | Raise e => Raise e
           end
  | None =>
      match solver_update (lda_solver w) A with
      | Ok s => Ok (mkLDA s (lda_tol w) [])
      | Raise e => Raise e
      end
  end.

Definition lda_solve (w : LDAWrapper) (rhs : ndarray) : result ndarray :=
  solver_solve (lda_solver w) rhs.

(** the first cached adjoint solve whose right-hand side the new one
    depends on, scaled by the factor *)
Fixpoint lda_lookup (tol : Qc) (rhs : ndarray) (cache : list (ndarray * ndarray))
  : option ndarray :=
  match cache with
  | [] => None
  | (b, x) :: cache' =>
      match linearly_dependent tol rhs b with
      | Some k => Some (np_scale k x)
      | None => lda_lookup tol rhs cache'
      end
  end.

(** Modelled from the spec (4.4): "when adjoint_solve is called with a
    new right-hand-side vector, the wrapper checks whether it is linearly
    dependent ... on a right-hand side solved in a previous adjoint call
    against the same factorization.  If dependent by scalar factor k, the
    cached adjoint solution is returned scaled by k, skipping the solve
    entirely." *)
Definition lda_adjoint (w : LDAWrapper) (rhs : ndarray)
  : result (LDAWrapper * ndarray) :=
  match lda_lookup (lda_tol w) rhs (lda_adjoint_cache w) with
  | Some x => Ok (w, x)
  | None =>
      match solver_adjoint (lda_solver w) rhs with
      | Ok x => Ok (mkLDA (lda_solver w) (lda_tol w)
                      ((rhs, x) :: lda_adjoint_cache w), x)
      | Raise e => Raise e
      end
  end.

(** method calls on [self.solver] *)
Definition obj_update (o : solver_obj) (A : matrix) : result solver_obj :=
  match o with
  | Plain s => match solver_update s A with Ok s' => Ok (Plain s') | Raise e => Raise e end
  | Wrapped w => match lda_update w A with Ok w' => Ok (Wrapped w') | Raise e => Raise e end
  end.

Definition obj_solve (o : solver_obj) (rhs : ndarray) : result ndarray :=
  match o with
  | Plain s => solver_solve s rhs
  | Wrapped w => lda_solve w rhs
  end.

Definition obj_adjoint (o : solver_obj) (rhs : ndarray) : result (solver_obj * ndarray) :=
  match o with
  | Plain s => match solver_adjoint s rhs with Ok x => Ok (Plain s, x) | Raise e => Raise e end
  | Wrapped w => match lda_adjoint w rhs with Ok (w', x) => Ok (Wrapped w', x) | Raise e => Raise e end
  end.

End Solvers.

(** ** The node [LinSolve] *)

(** The attributes of a node; [issparse], [iscomplex] and [u] do not exist
    before the first [_response]. *)
Record LinSolve : Type := mkLinSolve {
  dep_tol : Qc;
  ishermitian : option bool;
  issymmetric : option bool;
  solver : option solver_obj;
  issparse : option bool;
  iscomplex : option bool;
  u : option ndarray
}.

Definition set_ishermitian (v : option bool) (s : LinSolve) : LinSolve :=
  mkLinSolve (dep_tol s) v (issymmetric s) (solver s) (issparse s) (iscomplex s) (u s).
Definition set_solver (v : option solver_obj) (s : LinSolve) : LinSolve :=
  mkLinSolve (dep_tol s) (ishermitian s) (issymmetric s) v (issparse s) (iscomplex s) (u s).
Definition set_issparse (v : option bool) (s : LinSolve) : LinSolve :=
  mkLinSolve (dep_tol s) (ishermitian s) (issymmetric s) (solver s) v (iscomplex s) (u s).
Definition set_iscomplex (v : option bool) (s : LinSolve) : LinSolve :=
  mkLinSolve (dep_tol s) (ishermitian s) (issymmetric s) (solver s) (issparse s) v (u s).
Definition set_u (v : option ndarray) (s : LinSolve) : LinSolve :=
  mkLinSolve (dep_tol s) (ishermitian s) (issymmetric s) (solver s) (issparse s) (iscomplex s) v.

(** A method of the node: it may change the attributes and returns a value
    or raises; the attributes set before an exception stay set. *)
Definition method (T : Type) : Type := LinSolve -> LinSolve * result T.

Definition ret {T} (x : T) : method T := fun s => (s, Ok x).
Definition bind {S T} (m : method S) (k : S -> method T) : method T :=
  fun s => match m s with
           | (s', Ok x) => k x s'
           | (s', Raise e) => (s', Raise e)
           end.
Definition lift {T} (r : result T) : method T := fun s => (s, r).
Definition modify (f : LinSolve -> LinSolve) : method unit := fun s => (f s, Ok tt).
Definition get {T} (f : LinSolve -> T) : method T := fun s => (s, Ok (f s)).
(** reading an attribute that was never set, or calling a method on [None] *)
Definition attr {T} (f : LinSolve -> option T) : method T :=
  fun s => match f s with
           | Some x => (s, Ok x)
           | None => (s, Raise AttributeError)
           end.

Declare Scope method_scope.
Delimit Scope method_scope with method.
Notation "x <- m ;; k" := (bind m (fun x => k))
  (at level 61, m at next level, right associativity) : method_scope.
Notation "m ;; k" := (bind m (fun _ => k))
  (at level 61, right associativity) : method_scope.

(** [_prepare(dep_tol=1e-5, hermitian=None, symmetric=None, solver=None)] *)
Definition dep_tol_default : Qc := q 1 100000.

Definition _prepare (dep_tol : Qc) (hermitian symmetric : option bool)
  (solver : option solver_obj) : LinSolve :=
  mkLinSolve dep_tol hermitian symmetric solver None None None.

Definition is_not_None {T} (o : option T) : bool :=
  match o with Some _ => true | None => false end.

Section Node.
Context {P : Pymodular} {N : SolverNumerics}.
Local Open Scope method_scope.

Definition _response (mat : matrix) (rhs : ndarray) : method ndarray :=
  modify (set_issparse (Some (issparse_of mat))) ;;
  modify (set_iscomplex (Some (mat_iscomplex mat))) ;;
  cx <- attr iscomplex ;;
  sym <- get issymmetric ;;
  (if negb cx && is_not_None sym
   then modify (set_ishermitian sym) else ret tt) ;;
  herm <- get ishermitian ;;
  (match herm with
   | None => modify (set_ishermitian (Some (matrix_is_hermitian mat)))
   | Some _ => ret tt
   end) ;;
  slv <- get solver ;;
  (match slv with
   | None =>
       herm <- get ishermitian ;;
       k <- lift (auto_determine_solver mat None None None herm None None) ;;
       modify (set_solver (Some (Plain (new_solver k))))
   | Some _ => ret tt
   end) ;;
  slv <- attr solver ;;
  (match slv with
   | Plain s => modify (set_solver (Some (Wrapped (LDAWrapper_init s None))))
   | Wrapped _ => ret tt
   end) ;;
  slv <- attr solver ;;
  slv' <- lift (obj_update slv mat) ;;
  modify (set_solver (Some slv')) ;;
  slv <- attr solver ;;
  x <- lift (obj_solve slv rhs) ;;
  modify (set_u (Some x)) ;;
  attr u.

(** [mat] and [rhs] are the states of the two input signals *)
Definition _sensitivity (mat : matrix) (rhs : ndarray) (dfdv : ndarray)
  : method (dmat_t * ndarray) :=
  slv <- attr solver ;;
  r <- lift (obj_adjoint slv dfdv) ;;
  modify (set_solver (Some (fst r))) ;;
  let lam := snd r in
  sp <- attr issparse ;;
  dmat <-
    (if sp then
       cx <- attr iscomplex ;;
       x <- attr u ;;
       if negb cx && (iscomplexobj x || iscomplexobj lam) then
         ret (Dyad (mkDyadCarrier [np_neg (np_real lam); np_neg (np_imag lam)]
                                  [np_real x; np_imag x]))
       else
         ret (Dyad (mkDyadCarrier [np_neg lam] [x]))
     else
       x <- attr u ;;
       d <- (if Nat.ltb 1 (ndim x)
             then lift (einsum_iB_jB_ij (np_neg lam) (np_conj x))
             else ret (np_outer (np_neg lam) (np_conj x))) ;;
       cx <- attr iscomplex ;;
       if negb cx then ret (Dense (np_real d)) else ret (Dense d)) ;;
  let db := if isrealobj rhs then np_real lam else lam in
  ret (dmat, db).

End Node.

(** ** The two methods in direct style

    The attributes after each group of lines of [_response], and the
    result of [_sensitivity] as a function of the attributes it reads;
    the lemmas [_response_steps] and [_sensitivity_steps] relate them to
    the methods. *)

Section NodeSteps.
Context {P : Pymodular} {N : SolverNumerics}.

(** the attributes after lines 130-135 *)
Definition after_flags (mat : matrix) (s : LinSolve) : LinSolve :=
  let s := set_iscomplex (Some (mat_iscomplex mat))
             (set_issparse (Some (issparse_of mat)) s) in
  let s := if negb (mat_iscomplex mat) && is_not_None (issymmetric s)
           then set_ishermitian (issymmetric s) s else s in
  match ishermitian s with
  | None => set_ishermitian (Some (matrix_is_hermitian mat)) s
  | Some _ => s
  end.

(** the attributes after lines 138-141, and the wrapper in [self.solver] *)
Definition after_wrap (mat : matrix) (s : LinSolve) : LinSolve * result LDAWrapper :=
  let s := after_flags mat s in
  match solver s with
  | None =>
      match auto_determine_solver mat None None None (ishermitian s) None None with
      | Ok k => let w := LDAWrapper_init (new_solver k) None in
                (set_solver (Some (Wrapped w)) s, Ok w)
      | Raise e => (s, Raise e)
      end
  | Some (Plain k) => let w := LDAWrapper_init k None in
                      (set_solver (Some (Wrapped w)) s, Ok w)
  | Some (Wrapped w) => (s, Ok w)
  end.

(** lines 155-167 as a function of the attributes it reads *)
Definition matrix_sensitivity (sp cx : bool) (x lam : ndarray) : result dmat_t :=
  if sp then
    if negb cx && (iscomplexobj x || iscomplexobj lam)
    then Ok (Dyad (mkDyadCarrier [np_neg (np_real lam); np_neg (np_imag lam)]
                                 [np_real x; np_imag x]))
    else Ok (Dyad (mkDyadCarrier [np_neg lam] [x]))
  else
    match (if Nat.ltb 1 (ndim x)
           then einsum_iB_jB_ij (np_neg lam) (np_conj x)
           else Ok (np_outer (np_neg lam) (np_conj x))) with
    | Ok d => Ok (Dense (if negb cx then np_real d else d))
    | Raise e => Raise e
    end.

(** line 169 *)
Definition rhs_sensitivity (rhs lam : ndarray) : ndarray :=
  if isrealobj rhs then np_real lam else lam.

End NodeSteps.

(** ** The sum of the per-column outer products

    For two 2-D arrays with [n] columns: the sum over the columns [B] of
    the outer product of column [B] of [X] with column [B] of [Y]. *)
Fixpoint sum_of_column_outer_products (n : nat) (X Y : list (list complex))
  : list (list complex) :=
  match n with
  | O => map (fun _ => map (fun _ => c0) Y) X
  | S n' =>
      madd (outer (map (hd c0) X) (map (hd c0) Y))
           (sum_of_column_outer_products n' (map (@tl complex) X) (map (@tl complex) Y))
  end.

(** ** A reference instance of the package

    Used to run the model on concrete matrices. *)

Definition transpose (A : matrix) : list (list complex) :=
  map (fun i => map (fun j => entry A j i) (seq 0 (ncols A))) (seq 0 (nrows A)).

Definition diag_part (r : list (list complex)) : list (list complex) :=
  imap (fun i row => imap (fun j x => if Nat.eqb i j then x else c0) row) r.

(** Modelled from the spec: the three detection functions are missing
    from the sources.  "Detection of symmetry/Hermitian/diagonal/triangular
    properties is exact equality-within-tolerance": the matrix is compared
    with its diagonal part, its transpose and its conjugate transpose. *)
Definition detect_diagonal (A : matrix) : bool :=
  allclose (rows A) (diag_part (rows A)).
Definition detect_symmetric (A : matrix) : bool :=
  Nat.eqb (nrows A) (ncols A) && allclose (rows A) (transpose A).
Definition detect_hermitian (A : matrix) : bool :=
  Nat.eqb (nrows A) (ncols A) && allclose (rows A) (map (map cconj) (transpose A)).

Definition reference_package (pardiso scikit cvxopt : bool) : Pymodular :=
  {| matrix_is_diagonal := detect_diagonal;
     matrix_is_symmetric := detect_symmetric;
     matrix_is_hermitian := detect_hermitian;
     SolverSparsePardiso_defined := pardiso;
     SolverSparseCholeskyScikit_defined := scikit;
     SolverSparseCholeskyCVXOPT_defined := cvxopt |}.

Definition vdot (x y : list complex) : complex := dot (map cconj x) y.

(** Modelled from the spec: "linearly dependent (within a configurable
    relative tolerance)" and "dependent by scalar factor k".  The factor is
    the projection coefficient [k = <b, rhs> / <b, b>]; the right-hand side
    depends on [b] when [|rhs - k b| <= tol |rhs|]. *)
Definition proportional (tol : Qc) (rhs b : ndarray) : option (dtype * complex) :=
  let x := flatten rhs in
  let y := flatten b in
  if negb (Nat.eqb (length x) (length y)) then None
  else if Qc_eq_bool (re (vdot y y)) 0 then None
  else
    let k := cdiv (vdot y x) (vdot y y) in
    let r := zip_with (fun xi yi => csub xi (cmul k yi)) x y in
    if Qc_leb (re (vdot r r)) (tol * tol * re (vdot x x))
    then Some (promote (arr_dtype rhs) (arr_dtype b), k)
    else None.

(** An instance in which only the diagonal solver has numerics: the other
    families report a numerical failure. *)
Definition diagonal_only : SolverNumerics :=
  {| family_update := fun _ _ => Ok tt;
     family_solve := fun _ _ _ => Raise NumericalSolveError;
     family_adjoint := fun _ _ _ => Raise NumericalSolveError;
     linearly_dependent := proportional |}.

(** literals *)
Definition fl (n : Z) : complex := RtoC (q n 1).
Definition half : complex := RtoC (q 1 2).
Definition minus_i : complex := Cplx 0 (q (-1) 1).

(** the matrices and vectors of the examples *)
Definition diag_2_4 : matrix := dense float64 2 2 [[fl 2; fl 0]; [fl 0; fl 4]].
Definition diag_2_m4 : matrix := dense float64 2 2 [[fl 2; fl 0]; [fl 0; fl (-4)]].
Definition lower_1_1_1 : matrix := dense float64 2 2 [[fl 1; fl 0]; [fl 1; fl 1]].
Definition spd_2_1_1_2 : matrix := dense float64 2 2 [[fl 2; fl 1]; [fl 1; fl 2]].
Definition sparse_spd : matrix := Matrix true float64 2 2 [[fl 2; fl 1]; [fl 1; fl 2]].
Definition wide_1_2 (sp : bool) : matrix := Matrix sp float64 1 2 [[fl 1; fl 2]].
Definition sparse_complex_1 : matrix := Matrix true complex128 1 1 [[fl 1]].
Definition dense_complex_1 : matrix := Matrix false complex128 1 1 [[fl 1]].
Definition rhs_4_8 : ndarray := Vec float64 [fl 4; fl 8].
Definition seed_1_0 : ndarray := Vec float64 [fl 1; fl 0].

(** ** Predicates used in the further properties *)

(** the solver classes for scipy sparse matrices *)
Definition solver_is_sparse (k : Solver) : bool :=
  match k with
  | SolverSparsePardiso _ _ _ | SolverSparseCholeskyScikit
  | SolverSparseCholeskyCVXOPT | SolverSparseLU => true
  | _ => false
  end.

(** the class of the solver behind [self.solver] *)
Definition obj_kind (o : solver_obj) : Solver :=
  match o with
  | Plain s => kind s
  | Wrapped w => kind (lda_solver w)
  end.

(** a matrix sensitivity all of whose arrays have a real dtype *)
Definition dmat_isreal (d : dmat_t) : bool :=
  match d with
  | Dense a => isrealobj a
  | Dyad c => forallb isrealobj (dyad_u c) && forallb isrealobj (dyad_v c)
  end.

(** a float64 array holds no imaginary parts *)
Definition real_valued (z : complex) : Prop := im z = 0.
Definition well_typed (dt : dtype) (v : list complex) : Prop :=
  dt = float64 -> Forall real_valued v.

(** the node after the forward pass of the example, with a dense or a
    sparse matrix *)
Definition node_after_diag_2_4 (sp : bool) : LinSolve :=
  mkLinSolve dep_tol_default (Some true) None
    (Some (Wrapped (mkLDA (mkSolver SolverDiagonal (Some diag_2_4))
                      LDAWrapper_default_tol [])))
    (Some sp) (Some false) (Some (Vec float64 [fl 2; fl 2])).

(** ** The example script: node and dof groups

    Lines 27-50 of [ex_compliant_mechanism_prescribed_displacements.py].
    The script takes the node numbering and the node count from
    [pym.DomainDefinition], which is not among the sources: they are the
    two fields of [Domain]; [get_nodenumber] is applied elementwise to an
    array of row indices. *)
Local Open Scope nat_scope.

Record Domain : Type := mkDomain {
  get_nodenumber : nat -> nat -> nat;
  nnodes : nat
}.

(** a numpy operation on index arrays returns, or raises one of two errors *)
Inductive np_result (T : Type) : Type :=
| Value (x : T)
| IndexError
| ShapeError.
Arguments Value {T} x.
Arguments IndexError {T}.
Arguments ShapeError {T}.

Definition np_bind {S T} (r : np_result S) (k : S -> np_result T) : np_result T :=
  match r with
  | Value x => k x
  | IndexError => IndexError
  | ShapeError => ShapeError
  end.

Declare Scope np_scope.
Delimit Scope np_scope with np.
Notation "x <- m ;; k" := (np_bind m (fun x => k))
  (at level 61, m at next level, right associativity) : np_scope.

Definition np_arange (n : nat) : list nat := seq 0 n.

(** [np.repeat(l, k)]: every element [k] times in a row *)
Definition np_repeat (l : list nat) (k : nat) : list nat :=
  flat_map (fun a => repeat a k) l.

(** [np.tile(l, k)]: the whole array [k] times *)
Definition np_tile (l : list nat) (k : nat) : list nat := concat (repeat l k).

(** the sum of two 1-D arrays of the same length (the arrays of the script
    have at least two elements, so that no broadcasting applies) *)
Definition np_add (a b : list nat) : np_result (list nat) :=
  if Nat.eqb (length a) (length b) then Value (zip_with Nat.add a b)
  else ShapeError.

(** [l[0::2]] and [l[1::2]] *)
Fixpoint every_second (l : list nat) : list nat :=
  match l with
  | [] => []
  | a :: l' => a :: match l' with
                    | [] => []
                    | _ :: l'' => every_second l''
                    end
  end.
Definition slice_0_2 (l : list nat) : list nat := every_second l.
Definition slice_1_2 (l : list nat) : list nat := every_second (tl l).

(** [l[0]] and [l[-1]] *)
Definition first_item (l : list nat) : np_result nat :=
  match l with
  | [] => IndexError
  | a :: _ => Value a
  end.
Definition last_item (l : list nat) : np_result nat :=
  match rev l with
  | [] => IndexError
  | a :: _ => Value a
  end.

Definition occurs (d : nat) (l : list nat) : bool := existsb (Nat.eqb d) l.

(** [np.unique(l)]: the distinct values of [l] in increasing order, that
    is, the numbers up to the maximum of [l] that occur in [l] *)
Definition np_unique (l : list nat) : list nat :=
  filter (fun d => occurs d l) (seq 0 (S (list_max l))).

(** [np.setdiff1d(a, b)]: the distinct values of [a] that are not in [b],
    in increasing order *)
Definition np_setdiff1d (a b : list nat) : list nat :=
  filter (fun d => negb (occurs d b)) (np_unique a).

(** [np.zeros((n, m))] *)
Definition np_zeros (n m : nat) : list (list complex) := repeat (repeat c0 m) n.

Definition list_update {T} (i : nat) (f : T -> T) (l : list T) : list T :=
  imap (fun k x => if Nat.eqb k i then f x else x) l.

(** [u[i, :] = v] and [u[i, j] = v] on an array with [m] columns *)
Definition set_row (a : list (list complex)) (i : nat) (v : complex)
  : np_result (list (list complex)) :=
  if Nat.ltb i (length a) then Value (list_update i (map (fun _ => v)) a)
  else IndexError.
Definition set_item (m : nat) (a : list (list complex)) (i j : nat) (v : complex)
  : np_result (list (list complex)) :=
  if Nat.ltb i (length a) && Nat.ltb j m
  then Value (list_update i (list_update j (fun _ => v)) a)
  else IndexError.

(** [u[idx, :]]: the rows at the positions [idx] *)
Definition take_rows (a : list (list complex)) (idx : list nat)
  : np_result (list (list complex)) :=
  if forallb (fun d => Nat.ltb d (length a)) idx
  then Value (map (fun d => nth d a []) idx)
  else IndexError.

(** the arrays the script has built when it reaches line 51 *)
Record dof_groups : Type := mkGroups {
  dofs_left_x : list nat;
  dofs_left_y : list nat;
  dofs_right : list nat;
  dof_input : nat;
  dof_output : nat;
  all_dofs : list nat;
  prescribed_dofs : list nat;
  free_dofs : list nat;
  ff : list (list complex);
  up : list (list complex)
}.

Definition script_groups (nx ny : nat) (domain : Domain) : np_result dof_groups :=
  (let nodes_left := map (get_nodenumber domain 0) (np_arange (ny + 1)) in
   let nodes_right := map (get_nodenumber domain nx) (np_arange (ny + 1)) in
   dofs_left <- np_add (np_repeat (map (fun n => n * 2) nodes_left) 2)
                       (np_tile (np_arange 2) (ny + 1)) ;;
   dofs_right <- np_add (np_repeat (map (fun n => n * 2) nodes_right) 2)
                        (np_tile (np_arange 2) (ny + 1)) ;;
   let dofs_left_x := slice_0_2 dofs_left in
   let dofs_left_y := slice_1_2 dofs_left in
   dof_input <- first_item dofs_left_y ;;
   dof_output <- last_item dofs_left_y ;;
   let all_dofs := np_arange (2 * nnodes domain) in
   let prescribed_dofs :=
     np_unique (dofs_left_x ++ dofs_right ++ [dof_input] ++ [dof_output]) in
   let free_dofs := np_setdiff1d all_dofs prescribed_dofs in
   let ff := np_zeros (length free_dofs) 2 in
   let u := np_zeros (2 * nnodes domain) 2 in
   u <- set_row u dof_input (fl 1) ;;
   u <- set_item 2 u dof_output 0 (fl 1) ;;
   u <- set_item 2 u dof_output 1 (fl (-1)) ;;
   up <- take_rows u prescribed_dofs ;;
   Value (mkGroups dofs_left_x dofs_left_y dofs_right dof_input dof_output
            all_dofs prescribed_dofs free_dofs ff up))%np.

(** the problem settings of line 18 *)
Definition nx : nat := 40.
Definition ny : nat := 40.

(** a domain for the examples: [nx + 1] nodes per row, numbered row by row *)
Definition grid (nx ny : nat) : Domain :=
  mkDomain (fun i j => j * (nx + 1) + i) ((nx + 1) * (ny + 1)).

(** the arrays of the script written out, for the statements below *)
Definition left_x (D : Domain) (ny : nat) : list nat :=
  map (fun j => 2 * get_nodenumber D 0 j) (seq 0 (ny + 1)).
Definition left_y (D : Domain) (ny : nat) : list nat :=
  map (fun j => 2 * get_nodenumber D 0 j + 1) (seq 0 (ny + 1)).
Definition right_xy (D : Domain) (nx ny : nat) : list nat :=
  flat_map (fun j => [2 * get_nodenumber D nx j; 2 * get_nodenumber D nx j + 1])
           (seq 0 (ny + 1)).
Definition input_dof (D : Domain) : nat := 2 * get_nodenumber D 0 0 + 1.
Definition output_dof (D : Domain) (ny : nat) : nat := 2 * get_nodenumber D 0 ny + 1.
Definition prescribed (D : Domain) (nx ny : nat) : list nat :=
  np_unique (left_x D ny ++ right_xy D nx ny ++ [input_dof D] ++ [output_dof D ny]).
Definition displacement_row (din dout d : nat) : list complex :=
  if Nat.eqb d dout then [fl 1; fl (-1)]
  else if Nat.eqb d din then [fl 1; fl 1]
  else [c0; c0].

Local Open Scope Qc_scope.

(** ** Equality of computed arrays

    Two [Qc] numbers are equal when their fractions are; the boolean
    comparisons of arrays reflect equality. *)

Lemma ceqb_eq (a b : complex) : ceqb a b = true -> a = b.
Proof.
  destruct a as [ra ia], b as [rb ib]; unfold ceqb; simpl.
  intros H; apply andb_prop in H; destruct H as [H1 H2].
  apply Qc_eq_bool_correct in H1; apply Qc_eq_bool_correct in H2.
  now subst.
Qed.

Lemma list_eqb_eq {T} (eqb : T -> T -> bool) :
  (forall x y, eqb x y = true -> x = y) ->
  forall l1 l2, list_eqb eqb l1 l2 = true -> l1 = l2.
Proof.
  intros Heq; induction l1 as [|x l1 IH]; destruct l2 as [|y l2]; simpl;
    try discriminate; auto.
  intros H; apply andb_prop in H; destruct H as [Hx Hl].
  f_equal; auto.
Qed.

Lemma dtype_eqb_eq (a b : dtype) : dtype_eqb a b = true -> a = b.
Proof. destruct a, b; simpl; congruence. Qed.

Lemma ndarray_eqb_eq (a b : ndarray) : ndarray_eqb a b = true -> a = b.
Proof.
  destruct a as [d1 v1|d1 r1], b as [d2 v2|d2 r2]; simpl; try discriminate;
    intros H; apply andb_prop in H; destruct H as [Hd Hl];
    apply dtype_eqb_eq in Hd; subst; f_equal.
  - revert Hl; apply list_eqb_eq; exact ceqb_eq.
  - revert Hl; apply list_eqb_eq; apply list_eqb_eq; exact ceqb_eq.
Qed.

Lemma rows_eqb_eq (r1 r2 : list (list complex)) :
  list_eqb (list_eqb ceqb) r1 r2 = true -> r1 = r2.
Proof. apply list_eqb_eq; apply list_eqb_eq; exact ceqb_eq. Qed.

Lemma result_array_eq (a b : ndarray) :
  ndarray_eqb a b = true -> Ok a = Ok b.
Proof. intros H; f_equal; now apply ndarray_eqb_eq. Qed.

(** * Properties of the classifier *)

Section ClassifierFacts.
Context {P : Pymodular}.

Lemma auto_determine_solver_nonsquare A d lo up h s pd :
  Nat.eqb (nrows A) (ncols A) = false ->
  auto_determine_solver A d lo up h s pd = Ok SolverDenseQR.
Proof. intros E; unfold auto_determine_solver; now rewrite E. Qed.

(** Past the shape test and the diagonal test, the result is the one of
    the symmetry classification followed by the sparse or the dense
    selection; the triangular flags do not occur in it. *)
Lemma auto_determine_solver_general A d lo up h s pd :
  nrows A = ncols A ->
  or_detect d (matrix_is_diagonal A) = false ->
  auto_determine_solver A d lo up h s pd =
  match symmetry_flags A h s with
  | Raise e => Raise e
  | Ok (h', s') =>
      if sparse A then Ok (select_sparse A h' s' pd) else Ok (select_dense A h' s')
  end.
Proof.
  intros Esq Ed; unfold auto_determine_solver, issparse_of.
  rewrite Esq, Nat.eqb_refl, Ed; simpl.
  destruct (symmetry_flags A h s) as [[h' s']|e]; reflexivity.
Qed.

Lemma auto_determine_solver_diagonal A lo up h s pd :
  nrows A = ncols A -> matrix_is_diagonal A = true ->
  auto_determine_solver A None lo up h s pd = Ok SolverDiagonal.
Proof.
  intros Esq Hd; unfold auto_determine_solver.
  rewrite Esq, Nat.eqb_refl; simpl. now rewrite Hd.
Qed.

Lemma symmetry_flags_one_override A h :
  symmetry_flags A (Some h) None =
  Ok (h, if mat_iscomplex A then matrix_is_symmetric A else h).
Proof. unfold symmetry_flags; destruct (mat_iscomplex A); reflexivity. Qed.

Lemma family_of_select_dense A h s : family_of (select_dense A h s) <> FamTriangular.
Proof.
  unfold select_dense; destruct h, s, (diag_uniform_sign A); simpl; discriminate.
Qed.

End ClassifierFacts.

(** C6.  A non-square matrix gets the dense QR least-squares solver.  This
    holds for a dense and for a sparse matrix alike: in the sparse case the
    classifier builds a warning object, raises nothing and falls back on
    the dense QR solver, so the failure the claim allows for never
    happens. *)
Theorem nonsquare_selects_dense_QR (P : Pymodular) (A : matrix)
  (d lo up h s pd : option bool) :
  nrows A <> ncols A ->
  auto_determine_solver A d lo up h s pd = Ok SolverDenseQR.
Proof.
  intros H; apply auto_determine_solver_nonsquare.
  now apply Nat.eqb_neq.
Qed.

Lemma nonsquare_selects_dense_QR_witness :
  (nrows (wide_1_2 false) <> ncols (wide_1_2 false) /\
   @auto_determine_solver (reference_package false false false) (wide_1_2 false)
     None None None None None None = Ok SolverDenseQR) /\
  (nrows (wide_1_2 true) <> ncols (wide_1_2 true) /\
   @auto_determine_solver (reference_package true true true) (wide_1_2 true)
     None None None None None None = Ok SolverDenseQR).
Proof.
  split; (split; [simpl; lia | apply nonsquare_selects_dense_QR; simpl; lia]).
Defined.

(** C9.  A square matrix that is reported diagonal gets the diagonal
    solver, whether it is sparse or dense and whatever the signs of its
    diagonal entries and the other overrides are: the diagonal test comes
    before the symmetry classification, so neither Cholesky nor any other
    solver is selected, and conflicting symmetry overrides are not even
    looked at. *)
Theorem diagonal_selects_diagonal_solver (P : Pymodular) (A : matrix)
  (lo up h s pd : option bool) :
  nrows A = ncols A ->
  matrix_is_diagonal A = true ->
  auto_determine_solver A None lo up h s pd = Ok SolverDiagonal.
Proof. apply auto_determine_solver_diagonal. Qed.

Lemma diagonal_selects_diagonal_solver_witness :
  let P := reference_package false true true in
  (nrows diag_2_m4 = ncols diag_2_m4 /\ matrix_is_diagonal diag_2_m4 = true /\
   diag_uniform_sign diag_2_m4 = false /\
   auto_determine_solver diag_2_m4 None None None None None None = Ok SolverDiagonal) /\
  (matrix_is_symmetric diag_2_4 = true /\ diag_uniform_sign diag_2_4 = true /\
   auto_determine_solver diag_2_4 None None None None None None = Ok SolverDiagonal).
Proof.
  intro P; split.
  - split; [reflexivity|]. split; [vm_compute; reflexivity|].
    split; [vm_compute; reflexivity|].
    apply (@diagonal_selects_diagonal_solver P); [reflexivity | vm_compute; reflexivity].
  - split; [vm_compute; reflexivity|]. split; [vm_compute; reflexivity|].
    apply (@diagonal_selects_diagonal_solver P); [reflexivity | vm_compute; reflexivity].
Defined.

(** C3 as stated fails: the lower triangular matrix [[1,0],[1,1]] is dense,
    square, not diagonal and detected as lower triangular, and the
    classifier selects the general dense LU solver for it. *)
Lemma lower_triangular_selects_dense_LU :
  let P := reference_package false false false in
  sparse lower_1_1_1 = false /\ nrows lower_1_1_1 = ncols lower_1_1_1 /\
  matrix_is_diagonal lower_1_1_1 = false /\
  lower_triangular_detected lower_1_1_1 = true /\
  auto_determine_solver lower_1_1_1 None None None None None None = Ok SolverDenseLU /\
  ~ (exists k, auto_determine_solver lower_1_1_1 None None None None None None = Ok k /\
               family_of k = FamTriangular).
Proof.
  intro P.
  assert (E : auto_determine_solver lower_1_1_1 None None None None None None
              = Ok SolverDenseLU) by (vm_compute; reflexivity).
  repeat split; try (vm_compute; reflexivity); try exact E.
  intros [k [Hk Hf]]. rewrite E in Hk. inversion Hk; subst k. discriminate Hf.
Qed.

(** C3, amended.  For a dense square matrix that is not diagonal and is
    lower or upper triangular (by detection or by override) no triangular
    solver is selected: the triangular flags have no effect, and the result
    is the one of the symmetry classification followed by the dense
    selection (Cholesky, LDL or LU). *)
Theorem triangular_flags_have_no_effect (P : Pymodular) (A : matrix)
  (d lo up h s pd : option bool) :
  sparse A = false ->
  nrows A = ncols A ->
  or_detect d (matrix_is_diagonal A) = false ->
  or_detect lo (lower_triangular_detected A) = true \/
  or_detect up (upper_triangular_detected A) = true ->
  auto_determine_solver A d lo up h s pd =
    match symmetry_flags A h s with
    | Raise e => Raise e
    | Ok (h', s') => Ok (select_dense A h' s')
    end /\
  forall k, auto_determine_solver A d lo up h s pd = Ok k ->
            family_of k <> FamTriangular.
Proof.
  intros Hsp Esq Hd _.
  rewrite (auto_determine_solver_general A d lo up h s pd Esq Hd), Hsp.
  destruct (symmetry_flags A h s) as [[h' s']|e]; split; try reflexivity.
  - intros k Hk; inversion Hk; apply family_of_select_dense.
  - intros k Hk; discriminate Hk.
Qed.

Lemma triangular_flags_have_no_effect_witness :
  let P := reference_package false false false in
  auto_determine_solver lower_1_1_1 None None None None None None =
    match symmetry_flags lower_1_1_1 None None with
    | Raise e => Raise e
    | Ok (h', s') => Ok (select_dense lower_1_1_1 h' s')
    end /\
  forall k, auto_determine_solver lower_1_1_1 None None None None None None = Ok k ->
            family_of k <> FamTriangular.
Proof.
  intro P.
  apply (@triangular_flags_have_no_effect P lower_1_1_1 None None None None None None).
  - reflexivity.
  - reflexivity.
  - vm_compute; reflexivity.
  - left; vm_compute; reflexivity.
Defined.

(** C4.  For a dense square matrix that is not diagonal (triangular or
    not), with [h'] and [s'] the Hermitian and symmetric flags the
    classifier arrives at (detected unless overridden): Hermitian with a
    diagonal of uniform sign gives dense Cholesky; otherwise Hermitian or
    symmetric gives dense LDL; otherwise dense LU. *)
Theorem dense_selection (P : Pymodular) (A : matrix)
  (d lo up h s pd : option bool) (h' s' : bool) :
  sparse A = false ->
  nrows A = ncols A ->
  or_detect d (matrix_is_diagonal A) = false ->
  symmetry_flags A h s = Ok (h', s') ->
  auto_determine_solver A d lo up h s pd =
    Ok (if h' && diag_uniform_sign A then SolverDenseCholesky
        else if h' || s' then SolverDenseLDL h'
        else SolverDenseLU).
Proof.
  intros Hsp Esq Hd Hf.
  rewrite (auto_determine_solver_general A d lo up h s pd Esq Hd), Hf, Hsp.
  unfold select_dense.
  destruct h', s', (diag_uniform_sign A); reflexivity.
Qed.

Lemma dense_selection_witness :
  let P := reference_package true true true in
  symmetry_flags spd_2_1_1_2 None None = Ok (true, true) /\
  diag_uniform_sign spd_2_1_1_2 = true /\
  auto_determine_solver spd_2_1_1_2 None None None None None None =
    Ok SolverDenseCholesky.
Proof.
  intro P.
  assert (Hf : symmetry_flags spd_2_1_1_2 None None = Ok (true, true))
    by (vm_compute; reflexivity).
  split; [exact Hf|]. split; [vm_compute; reflexivity|].
  rewrite (@dense_selection P spd_2_1_1_2 None None None None None None true true);
    [ vm_compute; reflexivity | reflexivity | reflexivity
    | vm_compute; reflexivity | exact Hf ].
Defined.

(** C5.  For a sparse square matrix that is not diagonal, with [h'] and
    [s'] the flags the classifier arrives at: when Pardiso is available it
    is selected whatever the flags are; otherwise a Hermitian matrix with a
    diagonal of uniform sign gets a sparse Cholesky solver when one is
    available (Scikit first, then CVXOPT); in every other case the sparse
    LU solver is selected. *)
Theorem sparse_selection (P : Pymodular) (A : matrix)
  (d lo up h s pd : option bool) (h' s' : bool) :
  sparse A = true ->
  nrows A = ncols A ->
  or_detect d (matrix_is_diagonal A) = false ->
  symmetry_flags A h s = Ok (h', s') ->
  auto_determine_solver A d lo up h s pd =
    Ok (if SolverSparsePardiso_defined then SolverSparsePardiso s' h' pd
        else if h' && diag_uniform_sign A &&
                (SolverSparseCholeskyScikit_defined || SolverSparseCholeskyCVXOPT_defined)
        then (if SolverSparseCholeskyScikit_defined then SolverSparseCholeskyScikit
              else SolverSparseCholeskyCVXOPT)
        else SolverSparseLU).
Proof.
  intros Hsp Esq Hd Hf.
  rewrite (auto_determine_solver_general A d lo up h s pd Esq Hd), Hf, Hsp.
  unfold select_sparse.
  destruct SolverSparsePardiso_defined, h', (diag_uniform_sign A),
    SolverSparseCholeskyScikit_defined, SolverSparseCholeskyCVXOPT_defined; reflexivity.
Qed.

Lemma sparse_selection_witness :
  (let P := reference_package true false false in
   auto_determine_solver sparse_spd None None None None None None =
     Ok (SolverSparsePardiso true true None)) /\
  (let P := reference_package false false true in
   auto_determine_solver sparse_spd None None None None None None =
     Ok SolverSparseCholeskyCVXOPT) /\
  (let P := reference_package false false false in
   auto_determine_solver sparse_spd None None None None None None =
     Ok SolverSparseLU).
Proof.
  split; [|split]; intro P;
    (rewrite (@sparse_selection P sparse_spd None None None None None None true true);
     [ vm_compute; reflexivity | reflexivity | reflexivity
     | vm_compute; reflexivity | vm_compute; reflexivity ]).
Defined.

(** C7 as stated fails: for the real diagonal matrix diag(2,4) the two
    overrides are supplied and differ, and the classification does not
    fail; the diagonal solver is returned before the overrides are
    compared. *)
Lemma conflicting_overrides_on_diagonal_matrix :
  let P := reference_package false false false in
  mat_iscomplex diag_2_4 = false /\ nrows diag_2_4 = ncols diag_2_4 /\
  auto_determine_solver diag_2_4 None None None (Some true) (Some false) None
    = Ok SolverDiagonal /\
  ~ (exists e, auto_determine_solver diag_2_4 None None None (Some true) (Some false) None
               = Raise e).
Proof.
  intro P.
  assert (E : auto_determine_solver diag_2_4 None None None (Some true) (Some false) None
              = Ok SolverDiagonal) by (vm_compute; reflexivity).
  repeat split; try exact E.
  intros [e He]; rewrite E in He; discriminate He.
Qed.

(** C7, amended.  For a real-valued square matrix that is not classified
    as diagonal: when both overrides are supplied and differ the
    classification fails (with the assertion error of line 77); when they
    agree, or exactly one is supplied, it does not fail and the supplied
    value is used for both flags; when none is supplied it does not fail
    either. *)
Theorem real_override_consistency (P : Pymodular) (A : matrix)
  (d lo up h s pd : option bool) :
  mat_iscomplex A = false ->
  nrows A = ncols A ->
  or_detect d (matrix_is_diagonal A) = false ->
  (forall a b, h = Some a -> s = Some b -> a <> b ->
     exists msg, auto_determine_solver A d lo up h s pd = Raise (AssertionError msg)) /\
  (forall v, (h = Some v /\ s = Some v) \/ (h = Some v /\ s = None) \/
             (h = None /\ s = Some v) ->
     symmetry_flags A h s = Ok (v, v) /\
     auto_determine_solver A d lo up h s pd =
       Ok (if sparse A then select_sparse A v v pd else select_dense A v v)) /\
  (h = None -> s = None ->
     exists k, auto_determine_solver A d lo up h s pd = Ok k).
Proof.
  intros Hre Esq Hd.
  rewrite (auto_determine_solver_general A d lo up h s pd Esq Hd).
  unfold symmetry_flags; rewrite Hre.
  split; [|split].
  - intros a b -> -> Hab.
    destruct a, b; try (exfalso; apply Hab; reflexivity); simpl; eexists; reflexivity.
  - intros v [[-> ->]|[[-> ->]|[-> ->]]]; try rewrite Bool.eqb_reflx;
      (split; [reflexivity|]); destruct (sparse A); reflexivity.
  - intros -> ->. destruct (sparse A); eexists; reflexivity.
Qed.

Lemma real_override_consistency_witness :
  let P := reference_package false false false in
  (exists msg, auto_determine_solver spd_2_1_1_2 None None None (Some true) (Some false) None
               = Raise (AssertionError msg)) /\
  auto_determine_solver spd_2_1_1_2 None None None None (Some false) None
    = Ok SolverDenseLU.
Proof.
  intro P.
  assert (Hd : or_detect None (matrix_is_diagonal spd_2_1_1_2) = false)
    by (vm_compute; reflexivity).
  split.
  - apply (proj1 (@real_override_consistency P spd_2_1_1_2 None None None
                    (Some true) (Some false) None eq_refl eq_refl Hd) true false);
      [reflexivity | reflexivity | discriminate].
  - apply (proj2 (proj1 (proj2 (@real_override_consistency P spd_2_1_1_2 None None None
                    None (Some false) None eq_refl eq_refl Hd)) false
                    (or_intror (or_intror (conj eq_refl eq_refl))))).
Defined.

(** * Properties of the node *)

Section NodeStepsFacts.
Context {P : Pymodular} {N : SolverNumerics}.

Ltac run :=
  unfold _response, _sensitivity, bind, modify, attr, get, lift, ret; simpl.

Lemma _response_steps mat rhs s :
  _response mat rhs s =
  match after_wrap mat s with
  | (s1, Raise e) => (s1, Raise e)
  | (s1, Ok w) =>
      match lda_update w mat with
      | Raise e => (s1, Raise e)
      | Ok w' =>
          let s2 := set_solver (Some (Wrapped w')) s1 in
          match lda_solve w' rhs with
          | Raise e => (s2, Raise e)
          | Ok x => (set_u (Some x) s2, Ok x)
          end
      end
  end.
Proof.
  destruct s as [dt herm sym slv sp cx x0].
  unfold after_wrap, after_flags. run.
  destruct (mat_iscomplex mat), sym as [sy|], herm as [he|]; simpl.
  all: destruct slv as [[k|w]|]; simpl.
  all: try (destruct (auto_determine_solver mat None None None _ None None); simpl).
  all: try reflexivity.
  all: try (destruct (lda_update _ mat); simpl; try reflexivity).
  all: try (destruct (lda_solve _ rhs); simpl; reflexivity).
Qed.

Lemma _sensitivity_steps mat rhs dfdv s o o' sp cx x lam :
  solver s = Some o -> issparse s = Some sp -> iscomplex s = Some cx ->
  u s = Some x ->
  obj_adjoint o dfdv = Ok (o', lam) ->
  _sensitivity mat rhs dfdv s =
  (set_solver (Some o') s,
   match matrix_sensitivity sp cx x lam with
   | Ok d => Ok (d, rhs_sensitivity rhs lam)
   | Raise e => Raise e
   end).
Proof.
  destruct s as [dt herm sym slv sp0 cx0 x0]; simpl.
  intros -> -> -> -> Hadj.
  unfold matrix_sensitivity, rhs_sensitivity. run. rewrite Hadj; simpl.
  destruct sp; simpl.
  - destruct (negb cx && (iscomplexobj x || iscomplexobj lam)); reflexivity.
  - destruct (Nat.ltb 1 (ndim x)); simpl.
    + destruct (einsum_iB_jB_ij (np_neg lam) (np_conj x)); simpl; [|reflexivity].
      destruct cx; reflexivity.
    + destruct cx; reflexivity.
Qed.

End NodeStepsFacts.

Lemma result_reflect (r : result ndarray) (a : ndarray) :
  match r with Ok x => ndarray_eqb x a | Raise _ => false end = true -> r = Ok a.
Proof. destruct r as [x|e]; [|discriminate]. apply result_array_eq. Qed.

Section NodeFacts.
Context {P : Pymodular} {N : SolverNumerics}.

Lemma auto_determine_solver_hermitian_only mat h :
  exists k, auto_determine_solver mat None None None (Some h) None None = Ok k.
Proof.
  unfold auto_determine_solver.
  destruct (negb (Nat.eqb (nrows mat) (ncols mat))); [eexists; reflexivity|].
  destruct (or_detect None (matrix_is_diagonal mat)); [eexists; reflexivity|].
  rewrite symmetry_flags_one_override.
  destruct (issparse_of mat); eexists; reflexivity.
Qed.

Lemma after_flags_prepare mat dt herm sym slv :
  after_flags mat (_prepare dt herm sym slv) =
  mkLinSolve dt
    (if negb (mat_iscomplex mat) && is_not_None sym then sym
     else Some (or_detect herm (matrix_is_hermitian mat)))
    sym slv (Some (issparse_of mat)) (Some (mat_iscomplex mat)) None.
Proof.
  unfold after_flags, _prepare; simpl.
  destruct (mat_iscomplex mat), sym as [sy|], herm as [he|]; reflexivity.
Qed.

Lemma lda_update_tol w mat w' : lda_update w mat = Ok w' -> lda_tol w' = lda_tol w.
Proof.
  unfold lda_update.
  destruct (factored (lda_solver w)) as [A0|].
  - destruct (matrix_eqb A0 mat); [intros H; inversion H; reflexivity|].
    destruct (solver_update (lda_solver w) mat); intros H; inversion H; reflexivity.
  - destruct (solver_update (lda_solver w) mat); intros H; inversion H; reflexivity.
Qed.

Lemma after_wrap_solver mat s s1 w :
  after_wrap mat s = (s1, Ok w) -> solver s1 = Some (Wrapped w).
Proof.
  unfold after_wrap.
  destruct (solver (after_flags mat s)) as [[k|w0]|] eqn:E.
  - intros H; inversion H; subst. destruct (after_flags mat s); reflexivity.
  - intros H; inversion H; subst. exact E.
  - destruct (auto_determine_solver mat None None None _ None None);
      intros H; inversion H; subst.
    destruct (after_flags mat s); reflexivity.
Qed.

(** the flags and the tolerance are settled by line 141; the update and
    the solve do not touch them *)
Lemma _response_attributes mat rhs s :
  let s' := fst (_response mat rhs s) in
  dep_tol s' = dep_tol (fst (after_wrap mat s)) /\
  ishermitian s' = ishermitian (fst (after_wrap mat s)) /\
  issymmetric s' = issymmetric (fst (after_wrap mat s)) /\
  (forall w, snd (after_wrap mat s) = Ok w ->
     exists w', solver s' = Some (Wrapped w') /\ lda_tol w' = lda_tol w).
Proof.
  rewrite _response_steps.
  destruct (after_wrap mat s) as [s1 [w|e]] eqn:E; simpl.
  2: { repeat split; intros w H; discriminate H. }
  pose proof (after_wrap_solver _ _ E) as Hs.
  destruct (lda_update w mat) as [w'|e] eqn:Eu; simpl.
  2: { repeat split; intros w0 H; inversion H; subst; eauto. }
  pose proof (lda_update_tol _ _ Eu) as Ht.
  destruct (lda_solve w' rhs) as [x|e]; destruct s1; simpl;
    repeat split; intros w0 H; inversion H; subst; eauto.
Qed.

Lemma after_wrap_attributes mat s :
  dep_tol (fst (after_wrap mat s)) = dep_tol s /\
  ishermitian (fst (after_wrap mat s)) = ishermitian (after_flags mat s) /\
  issymmetric (fst (after_wrap mat s)) = issymmetric s.
Proof.
  assert (F : dep_tol (after_flags mat s) = dep_tol s /\
              issymmetric (after_flags mat s) = issymmetric s).
  { unfold after_flags. destruct s as [dt herm sym slv sp cx x0]; simpl.
    destruct (negb (mat_iscomplex mat) && is_not_None sym); simpl.
    - destruct sym; simpl; auto.
    - destruct herm; simpl; auto. }
  destruct F as [F1 F2].
  unfold after_wrap.
  destruct (after_flags mat s) as [dt herm sym slv sp cx x0]; simpl in *.
  destruct slv as [[k|w]|]; simpl; auto.
  destruct (auto_determine_solver mat None None None herm None None); simpl; auto.
Qed.

(** a node built without a solver, or with a bare one, ends up with a
    fresh wrapper *)
Lemma after_wrap_fresh mat dt herm sym slv :
  slv = None \/ (exists k, slv = Some (Plain k)) ->
  exists k, snd (after_wrap mat (_prepare dt herm sym slv))
            = Ok (LDAWrapper_init k None).
Proof.
  intros Hs. unfold after_wrap. rewrite after_flags_prepare; simpl.
  destruct Hs as [->|[k ->]]; [|eexists; reflexivity].
  assert (H : exists h, (if negb (mat_iscomplex mat) && is_not_None sym then sym
               else Some (or_detect herm (matrix_is_hermitian mat))) = Some h).
  { destruct (negb (mat_iscomplex mat)), sym; simpl; eauto. }
  destruct H as [h ->].
  destruct (auto_determine_solver_hermitian_only mat h) as [k ->].
  eexists; reflexivity.
Qed.

(** every exception of the forward pass of a prepared node comes from
    the update or the solve of the wrapped solver *)
Lemma _response_exceptions mat rhs dt herm sym slv e :
  snd (_response mat rhs (_prepare dt herm sym slv)) = Raise e ->
  exists w, lda_update w mat = Raise e \/
            (exists w', lda_update w mat = Ok w' /\ lda_solve w' rhs = Raise e).
Proof.
  rewrite _response_steps.
  destruct (after_wrap mat (_prepare dt herm sym slv)) as [s1 [w|e0]] eqn:E; simpl.
  - destruct (lda_update w mat) as [w'|e1] eqn:Eu; simpl.
    + destruct (lda_solve w' rhs) as [x|e2] eqn:Es; simpl; intros H; inversion H; subst.
      exists w; right; exists w'; auto.
    + intros H; inversion H; subst. exists w; left; exact Eu.
  - exfalso.
    destruct slv as [[k|w]|].
    + destruct (@after_wrap_fresh mat dt herm sym (Some (Plain k))) as [k' Hk];
        [right; eexists; reflexivity|]. rewrite E in Hk; discriminate Hk.
    + unfold after_wrap in E. rewrite after_flags_prepare in E; simpl in E.
      discriminate E.
    + destruct (@after_wrap_fresh mat dt herm sym None) as [k' Hk];
        [left; reflexivity|]. rewrite E in Hk; discriminate Hk.
Qed.

End NodeFacts.

Section DiagonalRoute.
Context {P : Pymodular} {N : SolverNumerics}.

(** the forward pass of a node built without a solver, on a matrix that
    is reported diagonal *)
Lemma _response_diagonal mat rhs dt herm sym x :
  nrows mat = ncols mat -> matrix_is_diagonal mat = true ->
  diag_factorize mat = Ok tt -> diag_solve mat rhs = Ok x ->
  exists h,
    _response mat rhs (_prepare dt herm sym None) =
    (mkLinSolve dt (Some h) sym
       (Some (Wrapped (mkLDA (mkSolver SolverDiagonal (Some mat))
                         LDAWrapper_default_tol [])))
       (Some (sparse mat)) (Some (mat_iscomplex mat)) (Some x),
     Ok x).
Proof.
  intros Esq Hd Hf Hs.
  rewrite _response_steps. unfold after_wrap. rewrite after_flags_prepare; simpl.
  assert (H : exists h, (if negb (mat_iscomplex mat) && is_not_None sym then sym
               else Some (or_detect herm (matrix_is_hermitian mat))) = Some h).
  { destruct (negb (mat_iscomplex mat)), sym; simpl; eauto. }
  destruct H as [h ->]. exists h.
  rewrite (@auto_determine_solver_diagonal P mat None None (Some h) None None Esq Hd).
  unfold lda_update, lda_solve, solver_update, solver_solve; simpl.
  rewrite Hf; simpl. rewrite Hs. reflexivity.
Qed.

(** the backward pass after it: the first adjoint solve is a genuine one *)
Lemma _sensitivity_diagonal mat rhs dfdv s A tol sp cx x lam :
  solver s = Some (Wrapped (mkLDA (mkSolver SolverDiagonal (Some A)) tol [])) ->
  issparse s = Some sp -> iscomplex s = Some cx -> u s = Some x ->
  diag_adjoint A dfdv = Ok lam ->
  obj_adjoint (Wrapped (mkLDA (mkSolver SolverDiagonal (Some A)) tol [])) dfdv
    = Ok (Wrapped (mkLDA (mkSolver SolverDiagonal (Some A)) tol [(dfdv, lam)]), lam) /\
  _sensitivity mat rhs dfdv s =
  (set_solver (Some (Wrapped (mkLDA (mkSolver SolverDiagonal (Some A)) tol
                                [(dfdv, lam)]))) s,
   match matrix_sensitivity sp cx x lam with
   | Ok d => Ok (d, rhs_sensitivity rhs lam)
   | Raise e => Raise e
   end).
Proof.
  intros Hs Hsp Hcx Hu Ha.
  assert (E : obj_adjoint (Wrapped (mkLDA (mkSolver SolverDiagonal (Some A)) tol [])) dfdv
              = Ok (Wrapped (mkLDA (mkSolver SolverDiagonal (Some A)) tol [(dfdv, lam)]), lam)).
  { unfold obj_adjoint, lda_adjoint, solver_adjoint; simpl. now rewrite Ha. }
  split; [exact E|].
  now apply (_sensitivity_steps mat rhs dfdv s Hs Hsp Hcx Hu E).
Qed.

End DiagonalRoute.

Lemma diag_2_4_solve : diag_solve diag_2_4 rhs_4_8 = Ok (Vec float64 [fl 2; fl 2]).
Proof. apply result_reflect; vm_compute; reflexivity. Qed.

Lemma diag_2_4_adjoint : diag_adjoint diag_2_4 seed_1_0 = Ok (Vec float64 [half; fl 0]).
Proof. apply result_reflect; vm_compute; reflexivity. Qed.

Lemma diag_2_4_outer :
  np_real (np_outer (np_neg (Vec float64 [half; fl 0])) (np_conj (Vec float64 [fl 2; fl 2])))
  = Mat float64 [[fl (-1); fl (-1)]; [fl 0; fl 0]].
Proof. apply ndarray_eqb_eq; vm_compute; reflexivity. Qed.

Lemma diag_2_4_matrix_sensitivity :
  matrix_sensitivity false false (Vec float64 [fl 2; fl 2]) (Vec float64 [half; fl 0])
  = Ok (Dense (Mat float64 [[fl (-1); fl (-1)]; [fl 0; fl 0]])).
Proof.
  change (Ok (Dense (np_real (np_outer (np_neg (Vec float64 [half; fl 0]))
                                       (np_conj (Vec float64 [fl 2; fl 2])))))
          = Ok (Dense (Mat float64 [[fl (-1); fl (-1)]; [fl 0; fl 0]]))).
  now rewrite diag_2_4_outer.
Qed.

(** C1.  The end-to-end scenario.  For the dense matrix A = diag([2,4]) and
    rhs = [4, 8], on a node built with the default arguments, the forward
    response returns x = [2, 2]; the adjoint solve of the output gradient
    [1, 0] gives lam = [0.5, 0]; the backward pass returns the matrix
    sensitivity [[-1, -1], [0, 0]] and the rhs sensitivity [0.5, 0].  The
    matrix must be reported diagonal by the package's detection, so that
    the diagonal solver is the one selected. *)
Theorem diagonal_scenario (P : Pymodular) (N : SolverNumerics) :
  matrix_is_diagonal diag_2_4 = true ->
  exists node1 node2 o o',
    _response diag_2_4 rhs_4_8 (_prepare dep_tol_default None None None)
      = (node1, Ok (Vec float64 [fl 2; fl 2])) /\
    solver node1 = Some o /\
    obj_adjoint o seed_1_0 = Ok (o', Vec float64 [half; fl 0]) /\
    _sensitivity diag_2_4 rhs_4_8 seed_1_0 node1
      = (node2, Ok (Dense (Mat float64 [[fl (-1); fl (-1)]; [fl 0; fl 0]]),
                    Vec float64 [half; fl 0])).
Proof.
  intros Hd.
  destruct (@_response_diagonal P N diag_2_4 rhs_4_8 dep_tol_default None None
              (Vec float64 [fl 2; fl 2]) eq_refl Hd) as [h Hr];
    [vm_compute; reflexivity | exact diag_2_4_solve |].
  rewrite Hr.
  match type of Hr with _ = (?n, _) => set (node1 := n) end.
  destruct (@_sensitivity_diagonal N diag_2_4 rhs_4_8 seed_1_0 node1 diag_2_4
              LDAWrapper_default_tol false false (Vec float64 [fl 2; fl 2])
              (Vec float64 [half; fl 0]) eq_refl eq_refl eq_refl eq_refl diag_2_4_adjoint)
    as [Ha Hs].
  do 4 eexists. split; [reflexivity|]. split; [reflexivity|]. split; [exact Ha|].
  rewrite Hs, diag_2_4_matrix_sensitivity. reflexivity.
Qed.

Lemma diagonal_scenario_witness :
  exists node1 node2 o o',
    @_response (reference_package false false false) diagonal_only
       diag_2_4 rhs_4_8 (_prepare dep_tol_default None None None)
      = (node1, Ok (Vec float64 [fl 2; fl 2])) /\
    solver node1 = Some o /\
    @obj_adjoint diagonal_only o seed_1_0 = Ok (o', Vec float64 [half; fl 0]) /\
    @_sensitivity diagonal_only diag_2_4 rhs_4_8 seed_1_0 node1
      = (node2, Ok (Dense (Mat float64 [[fl (-1); fl (-1)]; [fl 0; fl 0]]),
                    Vec float64 [half; fl 0])).
Proof.
  apply (@diagonal_scenario (reference_package false false false) diagonal_only).
  vm_compute; reflexivity.
Defined.

(** C10.  The forward pass and the two flags.  For a real-valued matrix, a
    symmetric flag supplied at construction becomes the hermitian flag,
    whatever hermitian flag was supplied (a conflicting one included); the
    classifier call of line 139, which receives only the hermitian flag,
    returns a solver, and every exception of the forward pass comes from
    the update or the solve of the wrapped solver, none from a consistency
    check.  For a complex-valued matrix the hermitian flag is the supplied
    one, or the detected one when none was supplied, whatever the
    symmetric flag is. *)
Theorem symmetric_flag_overwrites_hermitian (P : Pymodular) (N : SolverNumerics)
  (mat : matrix) (rhs : ndarray) (dt : Qc) (herm sym : option bool)
  (slv : option solver_obj) :
  (mat_iscomplex mat = false -> sym <> None ->
     ishermitian (fst (_response mat rhs (_prepare dt herm sym slv))) = sym /\
     (exists k, auto_determine_solver mat None None None
                  (ishermitian (fst (_response mat rhs (_prepare dt herm sym slv))))
                  None None = Ok k) /\
     (forall e, snd (_response mat rhs (_prepare dt herm sym slv)) = Raise e ->
        exists w, lda_update w mat = Raise e \/
                  (exists w', lda_update w mat = Ok w' /\ lda_solve w' rhs = Raise e))) /\
  (mat_iscomplex mat = true ->
     ishermitian (fst (_response mat rhs (_prepare dt herm sym slv))) =
       Some (or_detect herm (matrix_is_hermitian mat))).
Proof.
  destruct (_response_attributes mat rhs (_prepare dt herm sym slv)) as [_ [Hh _]].
  destruct (after_wrap_attributes mat (_prepare dt herm sym slv)) as [_ [Hh' _]].
  rewrite Hh' in Hh. rewrite after_flags_prepare in Hh. simpl in Hh.
  split.
  - intros Hre Hsym. rewrite Hh, Hre.
    destruct sym as [sy|]; [|contradiction Hsym; reflexivity]. simpl.
    split; [reflexivity|]. split.
    + apply auto_determine_solver_hermitian_only.
    + intros e; apply _response_exceptions.
  - intros Hcx. rewrite Hh, Hcx. reflexivity.
Qed.

Lemma symmetric_flag_overwrites_hermitian_witness :
  let P := reference_package false false false in
  let N := diagonal_only in
  ishermitian (fst (_response diag_2_4 rhs_4_8
                     (_prepare dep_tol_default (Some true) (Some false) None)))
    = Some false /\
  ishermitian (fst (_response sparse_complex_1 (Vec complex128 [ci])
                     (_prepare dep_tol_default None (Some false) None)))
    = Some (or_detect None (matrix_is_hermitian sparse_complex_1)).
Proof.
  intros P N; split.
  - apply (proj1 (@symmetric_flag_overwrites_hermitian P N diag_2_4 rhs_4_8
              dep_tol_default (Some true) (Some false) None));
      [reflexivity | discriminate].
  - apply (proj2 (@symmetric_flag_overwrites_hermitian P N sparse_complex_1
              (Vec complex128 [ci]) dep_tol_default None (Some false) None)).
    reflexivity.
Defined.

(** C8.  The claim fails: [dep_tol] is stored by [_prepare] and never read.
    For a node built with [dep_tol = 1e-3] and no solver, whatever the
    matrix, the right-hand side and the flags are, after the forward pass
    the node holds a wrapper that was built by [LDAWrapper(self.solver)]
    with no tolerance argument: its tolerance is the wrapper's own default
    and differs from the node's [dep_tol]. *)
Theorem dep_tol_1e_3_does_not_reach_the_wrapper (P : Pymodular) (N : SolverNumerics)
  (mat : matrix) (rhs : ndarray) (herm sym : option bool) :
  exists w,
    solver (fst (_response mat rhs (_prepare (q 1 1000) herm sym None)))
      = Some (Wrapped w) /\
    dep_tol (fst (_response mat rhs (_prepare (q 1 1000) herm sym None))) = q 1 1000 /\
    lda_tol w = q 1 100000 /\
    lda_tol w <> dep_tol (fst (_response mat rhs (_prepare (q 1 1000) herm sym None))).
Proof.
  set (node := _prepare (q 1 1000) herm sym None).
  destruct (_response_attributes mat rhs node) as [Hd [_ [_ Hw]]].
  destruct (after_wrap_attributes mat node) as [Hd' _].
  destruct (@after_wrap_fresh P mat (q 1 1000) herm sym None) as [k Hk];
    [left; reflexivity|].
  destruct (Hw _ Hk) as [w' [Hs Ht]].
  exists w'. rewrite Hd, Hd', Ht. simpl.
  repeat split; auto.
  intros H. apply (f_equal this) in H. vm_compute in H. discriminate H.
Qed.

(** ** The matrix sensitivity, branch by branch *)

(** Dense matrix, 1-D solution: the outer product [-lam (x) conj(x)], and
    its real part when the matrix is real-valued. *)
Lemma matrix_sensitivity_dense_vector (cx : bool) (dx : dtype) (x : list complex)
  (lam : ndarray) :
  matrix_sensitivity false cx (Vec dx x) lam =
  Ok (Dense (if cx then np_outer (np_neg lam) (np_conj (Vec dx x))
             else np_real (np_outer (np_neg lam) (np_conj (Vec dx x))))).
Proof. unfold matrix_sensitivity; simpl. destruct cx; reflexivity. Qed.

Lemma einsum_rows_step (X Y : list (list complex)) (n : nat) :
  Forall (fun r => length r = S n) X ->
  Forall (fun r => length r = S n) Y ->
  map (fun xi => map (fun yj => dot xi yj) Y) X =
  madd (outer (map (hd c0) X) (map (hd c0) Y))
       (map (fun xi => map (fun yj => dot xi yj) (map (@tl complex) Y))
            (map (@tl complex) X)).
Proof.
  intros HX HY. induction HX as [|xi X Hxi HX IH]; [reflexivity|].
  simpl. unfold madd in *. simpl. f_equal; [|exact IH].
  destruct xi as [|a xi']; [discriminate Hxi|]. simpl.
  clear IH HX Hxi. induction HY as [|yj Y Hyj HY IHY]; [reflexivity|].
  destruct yj as [|b yj']; [discriminate Hyj|]. simpl.
  f_equal. exact IHY.
Qed.

Lemma tl_lengths (X : list (list complex)) (n : nat) :
  Forall (fun r => length r = S n) X ->
  Forall (fun r => length r = n) (map (@tl complex) X).
Proof.
  induction 1 as [|r X Hr _ IH]; simpl; constructor; [|exact IH].
  destruct r; [discriminate Hr|]. simpl in *. congruence.
Qed.

(** [np.einsum("iB,jB->ij", X, Y)] is the sum of the per-column outer
    products. *)
Lemma einsum_is_sum_of_column_outer_products (n : nat) :
  forall X Y : list (list complex),
  Forall (fun r => length r = n) X ->
  Forall (fun r => length r = n) Y ->
  map (fun xi => map (fun yj => dot xi yj) Y) X = sum_of_column_outer_products n X Y.
Proof.
  induction n as [|n IH]; intros X Y HX HY.
  - simpl. induction HX as [|xi X Hxi _ IHX]; [reflexivity|].
    simpl. f_equal; [|exact IHX].
    destruct xi; [reflexivity|discriminate Hxi].
  - rewrite (einsum_rows_step HX HY). simpl. f_equal.
    apply IH; now apply tl_lengths.
Qed.

Lemma width_of_rows (X : list (list complex)) (n : nat) :
  X <> [] -> Forall (fun r => length r = n) X -> width X = n.
Proof. intros Hne HX; destruct HX; [contradiction Hne; reflexivity|assumption]. Qed.

(** Dense matrix, solution and gradient with several columns: the matrix
    sensitivity is the sum over the columns of the outer products of the
    columns of [-lam] with those of [conj(x)] (its real part when the
    matrix is real-valued). *)
Lemma matrix_sensitivity_dense_columns (cx : bool) (dx dl : dtype)
  (x lam : list (list complex)) (n : nat) :
  x <> [] -> lam <> [] ->
  Forall (fun r => length r = n) x ->
  Forall (fun r => length r = n) lam ->
  let M := Mat (promote dl dx)
             (sum_of_column_outer_products n (map (map cneg) lam) (map (map cconj) x)) in
  matrix_sensitivity false cx (Mat dx x) (Mat dl lam) =
  Ok (Dense (if cx then M else np_real M)).
Proof.
  intros Hx Hl HX HL M.
  assert (HX' : Forall (fun r => length r = n) (map (map cconj) x)).
  { clear Hx. induction HX; simpl; constructor; auto. now rewrite length_map. }
  assert (HL' : Forall (fun r => length r = n) (map (map cneg) lam)).
  { clear Hl. induction HL; simpl; constructor; auto. now rewrite length_map. }
  unfold matrix_sensitivity; simpl.
  rewrite (@width_of_rows (map (map cneg) lam) n), (@width_of_rows (map (map cconj) x) n);
    auto; try (destruct lam; [contradiction Hl; reflexivity|discriminate]);
    try (destruct x; [contradiction Hx; reflexivity|discriminate]).
  rewrite Nat.eqb_refl.
  rewrite (einsum_is_sum_of_column_outer_products HL' HX').
  destruct cx; reflexivity.
Qed.

Lemma real_part_of_conjugate_product (l x : complex) :
  cadd (cmul (cneg (creal l)) (creal x)) (cmul (cneg (cimag l)) (cimag x))
  = creal (cmul (cneg l) (cconj x)).
Proof.
  destruct l as [lr li], x as [xr xi].
  unfold cadd, cmul, cneg, creal, cimag, cconj, RtoC; simpl.
  f_equal; ring.
Qed.

Lemma real_imag_dyads (L X : list complex) :
  madd (outer (map cneg (map creal L)) (map creal X))
       (outer (map cneg (map cimag L)) (map cimag X))
  = map (map creal) (outer (map cneg L) (map cconj X)).
Proof.
  unfold madd, outer.
  induction L as [|l L IH]; [reflexivity|].
  simpl. f_equal; [|exact IH].
  clear IH. induction X as [|x X IHX]; [reflexivity|].
  simpl. f_equal; [|exact IHX].
  apply real_part_of_conjugate_product.
Qed.

(** Sparse real-valued matrix, complex solution or adjoint: the carrier of
    the two dyads [-Re lam (x) Re x] and [-Im lam (x) Im x] stands for the
    real part of [-lam (x) conj(x)]. *)
Lemma matrix_sensitivity_sparse_real (dx dl : dtype) (x lam : list complex) :
  dt_iscomplex dx || dt_iscomplex dl = true ->
  exists d,
    matrix_sensitivity true false (Vec dx x) (Vec dl lam) = Ok (Dyad d) /\
    todense d = Some (map (map creal) (outer (map cneg lam) (map cconj x))) /\
    np_real (np_outer (np_neg (Vec dl lam)) (np_conj (Vec dx x)))
    = Mat float64 (map (map creal) (outer (map cneg lam) (map cconj x))).
Proof.
  intros Hc. unfold matrix_sensitivity, iscomplexobj; simpl. rewrite Hc; simpl.
  eexists; split; [reflexivity|].
  unfold todense; simpl. rewrite real_imag_dyads. split; reflexivity.
Qed.

(** Sparse matrix otherwise: the carrier of the single dyad [-lam (x) x];
    the solution is passed as it is, without conjugation. *)
Lemma matrix_sensitivity_sparse_plain (cx : bool) (dx dl : dtype) (x lam : list complex) :
  negb cx && (dt_iscomplex dx || dt_iscomplex dl) = false ->
  matrix_sensitivity true cx (Vec dx x) (Vec dl lam)
    = Ok (Dyad (mkDyadCarrier [Vec dl (map cneg lam)] [Vec dx x])) /\
  todense (mkDyadCarrier [Vec dl (map cneg lam)] [Vec dx x])
    = Some (outer (map cneg lam) x).
Proof.
  intros Hc. unfold matrix_sensitivity, iscomplexobj; simpl. rewrite Hc.
  split; reflexivity.
Qed.

Lemma sparse_complex_1_solve :
  diag_solve sparse_complex_1 (Vec complex128 [ci]) = Ok (Vec complex128 [ci]).
Proof. apply result_reflect; vm_compute; reflexivity. Qed.

Lemma sparse_complex_1_adjoint :
  diag_adjoint sparse_complex_1 (Vec complex128 [fl 1]) = Ok (Vec complex128 [fl 1]).
Proof. apply result_reflect; vm_compute; reflexivity. Qed.

Lemma minus_one_times_i : outer (map cneg [fl 1]) [ci] = [[minus_i]].
Proof. apply rows_eqb_eq; vm_compute; reflexivity. Qed.

Lemma minus_one_times_conj_i :
  np_outer (np_neg (Vec complex128 [fl 1])) (np_conj (Vec complex128 [ci]))
  = Mat complex128 [[ci]].
Proof. apply ndarray_eqb_eq; vm_compute; reflexivity. Qed.

(** C2.  The claim fails on the sparse branch for a complex-valued matrix.
    For the sparse complex 1x1 matrix [[1]] with right-hand side [i] the
    solution is x = [i]; with output gradient [1] the adjoint is
    lam = [1].  The node returns the carrier of the single dyad
    ([-lam], [x]), with x not conjugated: it stands for [[-i]], whereas
    -lam (x) conj(x) is [[i]].  (The dense branch conjugates x, and so
    does in effect the sparse branch for a real-valued matrix.) *)
Theorem sparse_complex_sensitivity_is_not_conjugated
  (P : Pymodular) (N : SolverNumerics) :
  matrix_is_diagonal sparse_complex_1 = true ->
  exists node1 node2 d,
    _response sparse_complex_1 (Vec complex128 [ci])
      (_prepare dep_tol_default None None None)
      = (node1, Ok (Vec complex128 [ci])) /\
    _sensitivity sparse_complex_1 (Vec complex128 [ci]) (Vec complex128 [fl 1]) node1
      = (node2, Ok (Dyad d, Vec complex128 [fl 1])) /\
    dyad_v d = [Vec complex128 [ci]] /\
    todense d = Some [[minus_i]] /\
    np_outer (np_neg (Vec complex128 [fl 1])) (np_conj (Vec complex128 [ci]))
      = Mat complex128 [[ci]] /\
    todense d <> Some [[ci]].
Proof.
  intros Hd.
  destruct (@_response_diagonal P N sparse_complex_1 (Vec complex128 [ci])
              dep_tol_default None None (Vec complex128 [ci]) eq_refl Hd)
    as [h Hr]; [vm_compute; reflexivity | exact sparse_complex_1_solve |].
  rewrite Hr.
  match type of Hr with _ = (?n, _) => set (node1 := n) end.
  destruct (@_sensitivity_diagonal N sparse_complex_1 (Vec complex128 [ci])
              (Vec complex128 [fl 1]) node1 sparse_complex_1
              LDAWrapper_default_tol true true (Vec complex128 [ci])
              (Vec complex128 [fl 1]) eq_refl eq_refl eq_refl eq_refl
              sparse_complex_1_adjoint) as [_ Hs].
  destruct (@matrix_sensitivity_sparse_plain true complex128 complex128 [ci] [fl 1]
              eq_refl) as [Hm Ht].
  rewrite Hm in Hs. rewrite minus_one_times_i in Ht.
  do 3 eexists. split; [reflexivity|]. split; [exact Hs|].
  split; [reflexivity|]. split; [exact Ht|]. split.
  - exact minus_one_times_conj_i.
  - rewrite Ht. intros H.
    apply (f_equal (fun o => match o with
                             | Some ((z :: _) :: _) => this (im z)
                             | _ => 0%Q
                             end)) in H.
    vm_compute in H. discriminate H.
Qed.

Lemma sparse_complex_sensitivity_is_not_conjugated_witness :
  exists node1 node2 d,
    @_response (reference_package false false false) diagonal_only
      sparse_complex_1 (Vec complex128 [ci])
      (_prepare dep_tol_default None None None)
      = (node1, Ok (Vec complex128 [ci])) /\
    @_sensitivity diagonal_only sparse_complex_1 (Vec complex128 [ci])
      (Vec complex128 [fl 1]) node1
      = (node2, Ok (Dyad d, Vec complex128 [fl 1])) /\
    dyad_v d = [Vec complex128 [ci]] /\
    todense d = Some [[minus_i]] /\
    np_outer (np_neg (Vec complex128 [fl 1])) (np_conj (Vec complex128 [ci]))
      = Mat complex128 [[ci]] /\
    todense d <> Some [[ci]].
Proof.
  apply (@sparse_complex_sensitivity_is_not_conjugated
           (reference_package false false false) diagonal_only).
  vm_compute; reflexivity.
Defined.

(** The same data with the dense matrix [[1]]: the dense branch returns
    [[i]], the conjugated outer product. *)
Lemma dense_complex_sensitivity_is_conjugated (P : Pymodular) (N : SolverNumerics) :
  matrix_is_diagonal dense_complex_1 = true ->
  exists node1 node2,
    _response dense_complex_1 (Vec complex128 [ci])
      (_prepare dep_tol_default None None None)
      = (node1, Ok (Vec complex128 [ci])) /\
    _sensitivity dense_complex_1 (Vec complex128 [ci]) (Vec complex128 [fl 1]) node1
      = (node2, Ok (Dense (Mat complex128 [[ci]]), Vec complex128 [fl 1])).
Proof.
  intros Hd.
  destruct (@_response_diagonal P N dense_complex_1 (Vec complex128 [ci])
              dep_tol_default None None (Vec complex128 [ci]) eq_refl Hd)
    as [h Hr]; [vm_compute; reflexivity | exact sparse_complex_1_solve |].
  rewrite Hr.
  match type of Hr with _ = (?n, _) => set (node1 := n) end.
  destruct (@_sensitivity_diagonal N dense_complex_1 (Vec complex128 [ci])
              (Vec complex128 [fl 1]) node1 dense_complex_1
              LDAWrapper_default_tol false true (Vec complex128 [ci])
              (Vec complex128 [fl 1]) eq_refl eq_refl eq_refl eq_refl
              sparse_complex_1_adjoint) as [_ Hs].
  rewrite matrix_sensitivity_dense_vector in Hs. cbv iota in Hs.
  rewrite minus_one_times_conj_i in Hs.
  do 2 eexists. split; [reflexivity|exact Hs].
Qed.

(** Two nodes that differ only in [dep_tol] hold the same solver after the
    forward pass and return the same result: the parameter has no effect
    on the wrapper. *)
Lemma dep_tol_has_no_effect (P : Pymodular) (N : SolverNumerics)
  (mat : matrix) (rhs : ndarray) (d1 d2 : Qc) (herm sym : option bool)
  (slv : option solver_obj) :
  solver (fst (_response mat rhs (_prepare d1 herm sym slv)))
  = solver (fst (_response mat rhs (_prepare d2 herm sym slv))) /\
  snd (_response mat rhs (_prepare d1 herm sym slv))
  = snd (_response mat rhs (_prepare d2 herm sym slv)).
Proof.
  rewrite !_response_steps. unfold after_wrap. rewrite !after_flags_prepare; simpl.
  destruct slv as [[k|w]|]; simpl.
  - destruct (lda_update (LDAWrapper_init k None) mat) as [w'|e]; simpl; auto.
    destruct (lda_solve w' rhs); simpl; auto.
  - destruct (lda_update w mat) as [w'|e]; simpl; auto.
    destruct (lda_solve w' rhs); simpl; auto.
  - destruct (auto_determine_solver mat None None None _ None None) as [k|e];
      simpl; auto.
    destruct (lda_update (LDAWrapper_init (new_solver k) None) mat) as [w'|e]; simpl; auto.
    destruct (lda_solve w' rhs); simpl; auto.
Qed.

(** ** The reference detection on exactly diagonal matrices *)

Lemma Qc_square_nonneg (x : Qc) : 0 <= x * x.
Proof.
  unfold Qcle.
  change (this (x * x)) with (Qred (this x * this x)).
  rewrite Qred_correct. change (this 0) with 0%Q.
  generalize (this x); intros y. nra.
Qed.

Lemma cabs2_nonneg (a : complex) : 0 <= cabs2 a.
Proof.
  unfold cabs2.
  replace 0 with (0 + 0) by ring.
  apply Qcplus_le_compat; apply Qc_square_nonneg.
Qed.

Lemma isclose_refl (x : complex) : isclose x x = true.
Proof.
  unfold isclose. apply orb_true_intro; left.
  unfold Qc_leb. apply Qle_bool_iff. change (cabs2 (csub x x) - atol * atol - rtol * rtol * cabs2 x <= 0).
  assert (E : cabs2 (csub x x) = 0).
  { destruct x as [a b]; unfold cabs2, csub, cadd, cneg; simpl. ring. }
  rewrite E.
  pose proof (cabs2_nonneg x) as H1.
  pose proof (Qc_square_nonneg atol) as H2.
  pose proof (Qc_square_nonneg rtol) as H3.
  assert (H4 : 0 <= rtol * rtol * cabs2 x).
  { replace 0 with (0 * cabs2 x) by ring. apply Qcmult_le_compat_r; assumption. }
  apply Qcle_minus_iff.
  replace (0 + - (0 - atol * atol - rtol * rtol * cabs2 x))
    with (atol * atol + rtol * rtol * cabs2 x) by ring.
  replace 0 with (0 + 0) by ring.
  apply Qcplus_le_compat; assumption.
Qed.

Lemma diagonal_row_close (i : nat) (row : list complex) :
  forall s, (forall j, (s + j)%nat <> i -> nth j row c0 = c0) ->
  all2 isclose row (imap_from s (fun j x => if Nat.eqb i j then x else c0) row) = true.
Proof.
  induction row as [|x row IH]; intros s H; [reflexivity|].
  cbn [imap_from all2]. apply andb_true_intro; split.
  - destruct (Nat.eqb i s) eqn:E; [apply isclose_refl|].
    apply Nat.eqb_neq in E.
    assert (Hx : x = c0). { apply (H 0%nat). rewrite Nat.add_0_r. congruence. }
    rewrite Hx. apply isclose_refl.
  - apply IH. intros j Hj. apply (H (S j)). now rewrite Nat.add_succ_r.
Qed.

Lemma diagonal_rows_close (r : list (list complex)) :
  forall s, (forall i j, (s + i)%nat <> j -> nth j (nth i r []) c0 = c0) ->
  all2 (all2 isclose) r
    (imap_from s (fun i row => imap (fun j x => if Nat.eqb i j then x else c0) row) r)
  = true.
Proof.
  induction r as [|row r IH]; intros s H; [reflexivity|].
  cbn [imap_from all2]. apply andb_true_intro; split.
  - apply diagonal_row_close. intros j Hj. apply (H 0%nat j).
    rewrite Nat.add_0_r. rewrite Nat.add_0_l in Hj. congruence.
  - apply IH. intros i j Hij. apply (H (S i) j). now rewrite Nat.add_succ_r.
Qed.

(** The reference detection reports every matrix whose off-diagonal
    entries are zero as diagonal. *)
Lemma detect_diagonal_exact (A : matrix) :
  (forall i j, i <> j -> entry A i j = c0) -> detect_diagonal A = true.
Proof.
  intros H. unfold detect_diagonal, allclose, diag_part, imap.
  apply diagonal_rows_close. intros i j Hij. apply H. exact Hij.
Qed.

(** With the reference detection: every square matrix whose off-diagonal
    entries are zero gets the diagonal solver. *)
Lemma exactly_diagonal_selects_diagonal_solver (pardiso scikit cvxopt : bool)
  (A : matrix) (lo up h s pd : option bool) :
  nrows A = ncols A ->
  (forall i j, i <> j -> entry A i j = c0) ->
  @auto_determine_solver (reference_package pardiso scikit cvxopt)
    A None lo up h s pd = Ok SolverDiagonal.
Proof.
  intros Esq H. apply auto_determine_solver_diagonal; [exact Esq|].
  change (detect_diagonal A = true). now apply detect_diagonal_exact.
Qed.

(** * Further properties of the classifier *)

Section ClassifierMore.
Context {P : Pymodular}.

Lemma select_sparse_cases A h s pd :
  select_sparse A h s pd = SolverSparsePardiso s h pd /\ SolverSparsePardiso_defined = true \/
  SolverSparsePardiso_defined = false /\
  ((select_sparse A h s pd = SolverSparseCholeskyScikit \/
    select_sparse A h s pd = SolverSparseCholeskyCVXOPT) /\
   h = true /\ diag_uniform_sign A = true \/
   select_sparse A h s pd = SolverSparseLU).
Proof.
  unfold select_sparse.
  destruct SolverSparsePardiso_defined; [left; auto|right; split; [reflexivity|]].
  destruct h; [|right; reflexivity].
  destruct (diag_uniform_sign A); [|right; reflexivity].
  destruct SolverSparseCholeskyScikit_defined; [left; auto|].
  destruct SolverSparseCholeskyCVXOPT_defined; [left; auto|right; reflexivity].
Qed.

Lemma select_dense_cases A h s :
  select_dense A h s = SolverDenseCholesky /\ h = true /\ diag_uniform_sign A = true \/
  select_dense A h s = SolverDenseLDL h /\ (h = true \/ s = true) \/
  select_dense A h s = SolverDenseLU /\ h = false /\ s = false.
Proof.
  unfold select_dense. destruct h, s, (diag_uniform_sign A); auto.
Qed.

(** every way the classifier can return *)
Lemma auto_determine_solver_cases A d lo up h s pd :
  (nrows A <> ncols A /\ auto_determine_solver A d lo up h s pd = Ok SolverDenseQR) \/
  (nrows A = ncols A /\ or_detect d (matrix_is_diagonal A) = true /\
   auto_determine_solver A d lo up h s pd = Ok SolverDiagonal) \/
  (nrows A = ncols A /\ or_detect d (matrix_is_diagonal A) = false /\
   ((exists e, symmetry_flags A h s = Raise e /\
               auto_determine_solver A d lo up h s pd = Raise e) \/
    (exists h' s', symmetry_flags A h s = Ok (h', s') /\
       auto_determine_solver A d lo up h s pd =
         Ok (if sparse A then select_sparse A h' s' pd else select_dense A h' s')))).
Proof.
  destruct (Nat.eq_dec (nrows A) (ncols A)) as [Esq|Hne].
  2: { left; split; [exact Hne|]. apply auto_determine_solver_nonsquare.
       now apply Nat.eqb_neq. }
  right. destruct (or_detect d (matrix_is_diagonal A)) eqn:Ed.
  - left. split; [exact Esq|]. split; [reflexivity|].
    unfold auto_determine_solver. rewrite Esq, Nat.eqb_refl; simpl. now rewrite Ed.
  - right. split; [exact Esq|]. split; [reflexivity|].
    rewrite (auto_determine_solver_general A d lo up h s pd Esq Ed).
    destruct (symmetry_flags A h s) as [[h' s']|e].
    + right. exists h', s'. split; [reflexivity|]. destruct (sparse A); reflexivity.
    + left. exists e. split; reflexivity.
Qed.

Lemma symmetry_flags_raises A h s e :
  symmetry_flags A h s = Raise e <->
  mat_iscomplex A = false /\
  (exists a b, h = Some a /\ s = Some b /\ a <> b) /\
  e = AssertionError
        "For real-valued matrices, symmetry and hermitian must be equal"%string.
Proof.
  unfold symmetry_flags. split.
  - destruct (mat_iscomplex A); [discriminate|].
    destruct h as [a|], s as [b|]; try discriminate.
    destruct (Bool.eqb a b) eqn:E; [discriminate|].
    intros H; inversion H; subst. split; [reflexivity|]. split; [|reflexivity].
    exists a, b. repeat split. intros ->. rewrite Bool.eqb_reflx in E. discriminate E.
  - intros [-> [[a [b [-> [-> Hab]]]] ->]].
    destruct (Bool.eqb a b) eqn:E; [|reflexivity].
    apply Bool.eqb_prop in E. contradiction.
Qed.

Lemma symmetry_flags_real_equal A h s h' s' :
  mat_iscomplex A = false -> symmetry_flags A h s = Ok (h', s') -> h' = s'.
Proof.
  unfold symmetry_flags. intros ->.
  destruct h as [a|], s as [b|]; try (intros H; inversion H; reflexivity).
  destruct (Bool.eqb a b) eqn:E; [|discriminate].
  apply Bool.eqb_prop in E. intros H; inversion H; subst; reflexivity.
Qed.

End ClassifierMore.

(** X1.  The classifier raises exactly when the matrix is square, is not
    classified as diagonal, is real-valued, and both symmetry overrides
    are supplied and differ; the exception is then the assertion error of
    line 77.  In every other case it returns a solver. *)
Theorem auto_determine_solver_raises_iff (P : Pymodular) (A : matrix)
  (d lo up h s pd : option bool) (e : exception) :
  auto_determine_solver A d lo up h s pd = Raise e <->
  nrows A = ncols A /\
  or_detect d (matrix_is_diagonal A) = false /\
  mat_iscomplex A = false /\
  (exists a b, h = Some a /\ s = Some b /\ a <> b) /\
  e = AssertionError
        "For real-valued matrices, symmetry and hermitian must be equal"%string.
Proof.
  split.
  - intros H.
    destruct (auto_determine_solver_cases A d lo up h s pd)
      as [[_ E]|[[_ [_ E]]|[Esq [Ed [[e' [Hf E]]|[h' [s' [_ E]]]]]]]];
      rewrite E in H; try discriminate H.
    inversion H; subst e'. apply symmetry_flags_raises in Hf.
    destruct Hf as [Hre [Hab He]]. auto.
  - intros [Esq [Ed [Hre [Hab He]]]].
    rewrite (auto_determine_solver_general A d lo up h s pd Esq Ed).
    assert (Hf : symmetry_flags A h s = Raise e)
      by (apply symmetry_flags_raises; auto).
    now rewrite Hf.
Qed.

(** X2.  The [isdiagonal] override replaces the detection.  With
    [isdiagonal=True] every square matrix gets the diagonal solver, whether
    or not it is diagonal; with [isdiagonal=False] no matrix gets it, not
    even one the detection reports as diagonal. *)
Theorem isdiagonal_override_decides (P : Pymodular) (A : matrix)
  (lo up h s pd : option bool) :
  (nrows A = ncols A ->
   auto_determine_solver A (Some true) lo up h s pd = Ok SolverDiagonal) /\
  auto_determine_solver A (Some false) lo up h s pd <> Ok SolverDiagonal.
Proof.
  split.
  - intros Esq. unfold auto_determine_solver. now rewrite Esq, Nat.eqb_refl.
  - destruct (auto_determine_solver_cases A (Some false) lo up h s pd)
      as [[_ E]|[[_ [Ed _]]|[_ [_ [[e [_ E]]|[h' [s' [_ E]]]]]]]];
      try rewrite E; try discriminate.
    destruct (sparse A).
    + destruct (select_sparse_cases A h' s' pd) as [[-> _]|[_ [[[-> | ->] _]| ->]]];
        discriminate.
    + destruct (select_dense_cases A h' s') as [[-> _]|[[-> _]|[-> _]]]; discriminate.
Qed.

Lemma isdiagonal_override_decides_witness :
  let P := reference_package false false false in
  matrix_is_diagonal lower_1_1_1 = false /\
  auto_determine_solver lower_1_1_1 (Some true) None None None None None
    = Ok SolverDiagonal /\
  matrix_is_diagonal diag_2_4 = true /\
  auto_determine_solver diag_2_4 (Some false) None None None None None
    <> Ok SolverDiagonal.
Proof.
  intro P. split; [vm_compute; reflexivity|]. split.
  - apply (proj1 (@isdiagonal_override_decides P lower_1_1_1 None None None None None)).
    reflexivity.
  - split; [vm_compute; reflexivity|].
    apply (proj2 (@isdiagonal_override_decides P diag_2_4 None None None None None)).
Defined.

(** X3.  Three of the overrides hardly matter.  [islowertriangular] and
    [isuppertriangular] never change the result; [ispositivedefinite] is
    only handed to the Pardiso solver, so it changes nothing for a dense
    matrix or when Pardiso is not available. *)
Theorem unused_overrides (P : Pymodular) (A : matrix)
  (d lo up lo' up' h s pd pd' : option bool) :
  auto_determine_solver A d lo up h s pd = auto_determine_solver A d lo' up' h s pd /\
  (sparse A = false \/ SolverSparsePardiso_defined = false ->
   auto_determine_solver A d lo up h s pd = auto_determine_solver A d lo up h s pd').
Proof.
  split; [reflexivity|].
  intros Hc. unfold auto_determine_solver, issparse_of.
  destruct (negb (Nat.eqb (nrows A) (ncols A))); [reflexivity|].
  destruct (or_detect d (matrix_is_diagonal A)); [reflexivity|].
  destruct (symmetry_flags A h s) as [[h' s']|e]; [|reflexivity].
  destruct Hc as [-> | Hp]; [reflexivity|].
  destruct (sparse A); [|reflexivity].
  unfold select_sparse. now rewrite Hp.
Qed.

Lemma unused_overrides_witness :
  let P := reference_package false true true in
  auto_determine_solver sparse_spd None None None None None (Some true)
  = auto_determine_solver sparse_spd None None None None None (Some false).
Proof.
  intro P.
  apply (proj2 (@unused_overrides P sparse_spd None None None None None None None
                  (Some true) (Some false))).
  right; reflexivity.
Defined.

(** X4.  The solver matches the storage of a square matrix.  A solver for
    sparse matrices is only returned for a sparse matrix, and a square
    sparse matrix gets the diagonal solver or a sparse one; the only dense
    solver a sparse matrix can get is the QR solver of the non-square
    case. *)
Theorem solver_matches_storage (P : Pymodular) (A : matrix)
  (d lo up h s pd : option bool) (k : Solver) :
  auto_determine_solver A d lo up h s pd = Ok k ->
  (solver_is_sparse k = true -> sparse A = true /\ nrows A = ncols A) /\
  (sparse A = true ->
   k = SolverDiagonal \/ solver_is_sparse k = true \/
   (k = SolverDenseQR /\ nrows A <> ncols A)).
Proof.
  intros H.
  destruct (auto_determine_solver_cases A d lo up h s pd)
    as [[Hne E]|[[_ [_ E]]|[Esq [_ [[e [_ E]]|[h' [s' [_ E]]]]]]]];
    rewrite E in H; try discriminate H; inversion H; subst k; clear H.
  - split; [discriminate|]. intros _. right; right. auto.
  - split; [discriminate|]. intros _. left; reflexivity.
  - destruct (sparse A).
    + split; [intros _; auto|]. intros _. right; left.
      destruct (select_sparse_cases A h' s' pd) as [[-> _]|[_ [[[-> | ->] _]| ->]]];
        reflexivity.
    + split; [|discriminate].
      destruct (select_dense_cases A h' s') as [[-> _]|[[-> _]|[-> _]]]; discriminate.
Qed.

Lemma solver_matches_storage_witness :
  let P := reference_package false false false in
  sparse (wide_1_2 true) = true /\
  auto_determine_solver (wide_1_2 true) None None None None None None
    = Ok SolverDenseQR /\
  (SolverDenseQR = SolverDiagonal \/ solver_is_sparse SolverDenseQR = true \/
   (SolverDenseQR = SolverDenseQR /\ nrows (wide_1_2 true) <> ncols (wide_1_2 true))).
Proof.
  intro P. split; [reflexivity|].
  assert (E : auto_determine_solver (wide_1_2 true) None None None None None None
              = Ok SolverDenseQR) by (vm_compute; reflexivity).
  split; [exact E|].
  apply (proj2 (@solver_matches_storage P (wide_1_2 true) None None None None None None
                  SolverDenseQR E)).
  reflexivity.
Defined.

(** X5.  For a real-valued matrix the two symmetry flags always agree, so
    Pardiso is built with [symmetric = hermitian] and the LDL solver with
    [hermitian=True]: the branch of line 106, Hermitian false and symmetric
    true, is only taken for a complex-valued matrix. *)
Theorem real_matrix_flags_agree (P : Pymodular) (A : matrix)
  (d lo up h s pd : option bool) :
  mat_iscomplex A = false ->
  (forall sy he p,
     auto_determine_solver A d lo up h s pd = Ok (SolverSparsePardiso sy he p) ->
     sy = he /\ p = pd) /\
  (forall he,
     auto_determine_solver A d lo up h s pd = Ok (SolverDenseLDL he) -> he = true).
Proof.
  intros Hre.
  destruct (auto_determine_solver_cases A d lo up h s pd)
    as [[_ E]|[[_ [_ E]]|[_ [_ [[e [_ E]]|[h' [s' [Hf E]]]]]]]];
    rewrite E; try (split; intros; discriminate).
  pose proof (symmetry_flags_real_equal A h s Hre Hf) as Heq. subst s'.
  destruct (sparse A).
  - destruct (select_sparse_cases A h' h' pd) as [[-> _]|[_ [[[-> | ->] _]| ->]]];
      split; intros; try discriminate.
    match goal with H : Ok _ = Ok _ |- _ => inversion H; subst; auto end.
  - destruct (select_dense_cases A h' h') as [[-> _]|[[-> Hh]|[-> _]]];
      split; intros; try discriminate.
    match goal with H : Ok _ = Ok _ |- _ => inversion H; subst end.
    destruct Hh; assumption.
Qed.

Lemma real_matrix_flags_agree_witness :
  let P := reference_package true false false in
  auto_determine_solver sparse_spd None None None None None None
    = Ok (SolverSparsePardiso true true None) /\
  (true = true /\ @None bool = None).
Proof.
  intro P.
  assert (E : auto_determine_solver sparse_spd None None None None None None
              = Ok (SolverSparsePardiso true true None)) by (vm_compute; reflexivity).
  split; [exact E|].
  apply (proj1 (@real_matrix_flags_agree P sparse_spd None None None None None None
                  eq_refl) true true None E).
Defined.

Lemma cgt0_zero : cgt0 c0 = false.
Proof. vm_compute; reflexivity. Qed.

Lemma clt0_zero : clt0 c0 = false.
Proof. vm_compute; reflexivity. Qed.

Lemma uniform_sign_excludes_zero (A : matrix) :
  diag_uniform_sign A = true -> ~ In c0 (diagonal A).
Proof.
  unfold diag_uniform_sign, all_gt0, all_lt0. intros H Hin.
  apply orb_prop in H. destruct H as [H|H];
    rewrite forallb_forall in H; specialize (H c0 Hin).
  - rewrite cgt0_zero in H; discriminate H.
  - rewrite clt0_zero in H; discriminate H.
Qed.

(** X6.  A Cholesky solver, dense or sparse, is only selected for a square
    matrix whose Hermitian flag holds and whose diagonal has a uniform
    sign; in particular a matrix with a zero on its diagonal never gets
    one. *)
Theorem cholesky_needs_uniform_diagonal (P : Pymodular) (A : matrix)
  (d lo up h s pd : option bool) (k : Solver) :
  auto_determine_solver A d lo up h s pd = Ok k ->
  family_of k = FamCholesky ->
  nrows A = ncols A /\
  (exists s', symmetry_flags A h s = Ok (true, s')) /\
  diag_uniform_sign A = true /\
  ~ In c0 (diagonal A).
Proof.
  intros H Hk.
  destruct (auto_determine_solver_cases A d lo up h s pd)
    as [[_ E]|[[_ [_ E]]|[Esq [_ [[e [_ E]]|[h' [s' [Hf E]]]]]]]];
    rewrite E in H; try discriminate H; inversion H; subst k; clear H;
    try discriminate Hk.
  assert (Hc : h' = true /\ diag_uniform_sign A = true).
  { destruct (sparse A).
    - destruct (select_sparse_cases A h' s' pd) as [[E1 _]|[_ [[_ Hc]| E1]]];
        try (rewrite E1 in Hk; discriminate Hk). exact Hc.
    - destruct (select_dense_cases A h' s') as [[_ Hc]|[[E1 _]|[E1 _]]];
        try (rewrite E1 in Hk; discriminate Hk). exact Hc. }
  destruct Hc as [-> Hu].
  split; [exact Esq|]. split; [exists s'; exact Hf|]. split; [exact Hu|].
  now apply uniform_sign_excludes_zero.
Qed.

Lemma cholesky_needs_uniform_diagonal_witness :
  let P := reference_package false false false in
  diag_uniform_sign spd_2_1_1_2 = true /\ ~ In c0 (diagonal spd_2_1_1_2).
Proof.
  intro P.
  assert (E : auto_determine_solver spd_2_1_1_2 None None None None None None
              = Ok SolverDenseCholesky) by (vm_compute; reflexivity).
  apply (proj2 (proj2 (@cholesky_needs_uniform_diagonal P spd_2_1_1_2
                         None None None None None None SolverDenseCholesky E eq_refl))).
Defined.

(** * Further properties of the node *)

Section NodeMore.
Context {P : Pymodular} {N : SolverNumerics}.

Lemma after_flags_keeps mat s :
  solver (after_flags mat s) = solver s /\ u (after_flags mat s) = u s /\
  issparse (after_flags mat s) = Some (sparse mat) /\
  iscomplex (after_flags mat s) = Some (mat_iscomplex mat).
Proof.
  unfold after_flags. destruct s as [dt herm sym slv sp cx x0]; simpl.
  destruct (negb (mat_iscomplex mat) && is_not_None sym); simpl.
  - destruct sym; simpl; auto.
  - destruct herm; simpl; auto.
Qed.

Lemma after_wrap_keeps mat s :
  u (fst (after_wrap mat s)) = u s /\
  issparse (fst (after_wrap mat s)) = Some (sparse mat) /\
  iscomplex (fst (after_wrap mat s)) = Some (mat_iscomplex mat).
Proof.
  destruct (after_flags_keeps mat s) as [_ [Hu [Hsp Hcx]]].
  unfold after_wrap.
  destruct (after_flags mat s) as [dt herm sym slv sp cx x0]; simpl in *.
  destruct slv as [[k|w]|]; simpl; auto.
  destruct (auto_determine_solver mat None None None herm None None); simpl; auto.
Qed.

Lemma after_wrap_kind mat s o :
  solver s = Some o ->
  exists w, after_wrap mat s = (fst (after_wrap mat s), Ok w) /\
            kind (lda_solver w) = obj_kind o /\
            lda_tol w = match o with
                        | Wrapped w0 => lda_tol w0
                        | Plain _ => LDAWrapper_default_tol
                        end.
Proof.
  intros Hs. destruct (after_flags_keeps mat s) as [Hk _]. rewrite Hs in Hk.
  unfold after_wrap. rewrite Hk.
  destruct o as [k|w0]; simpl; eexists; split; try reflexivity; auto.
Qed.

Lemma solver_update_kind s A s' : solver_update s A = Ok s' -> kind s' = kind s.
Proof.
  unfold solver_update.
  destruct (match kind s with SolverDiagonal => diag_factorize A
                            | k => family_update k A end);
    intros H; inversion H; reflexivity.
Qed.

Lemma lda_update_kind w A w' :
  lda_update w A = Ok w' -> kind (lda_solver w') = kind (lda_solver w).
Proof.
  unfold lda_update.
  destruct (factored (lda_solver w)) as [A0|].
  - destruct (matrix_eqb A0 A); [intros H; inversion H; reflexivity|].
    destruct (solver_update (lda_solver w) A) eqn:E; intros H; inversion H; subst.
    simpl. eapply solver_update_kind; eassumption.
  - destruct (solver_update (lda_solver w) A) eqn:E; intros H; inversion H; subst.
    simpl. eapply solver_update_kind; eassumption.
Qed.

(** a node that holds a solver keeps its class through a forward pass *)
Lemma _response_keeps_class mat rhs s o :
  solver s = Some o ->
  exists w, solver (fst (_response mat rhs s)) = Some (Wrapped w) /\
            kind (lda_solver w) = obj_kind o /\
            lda_tol w = match o with
                        | Wrapped w0 => lda_tol w0
                        | Plain _ => LDAWrapper_default_tol
                        end.
Proof.
  intros Hs. destruct (@after_wrap_kind mat s o Hs) as [w [Ew [Hk Ht]]].
  rewrite _response_steps. rewrite Ew.
  pose proof (after_wrap_solver _ _ Ew) as Hw.
  destruct (lda_update w mat) as [w'|e] eqn:Eu; simpl.
  - pose proof (lda_update_kind _ _ Eu) as Hk'.
    pose proof (lda_update_tol _ _ Eu) as Ht'.
    exists w'. destruct (lda_solve w' rhs); destruct (fst (after_wrap mat s)); simpl;
      repeat split; congruence.
  - exists w. auto.
Qed.

Lemma _response_sets_solver mat rhs dt herm sym slv :
  exists w, solver (fst (_response mat rhs (_prepare dt herm sym slv)))
            = Some (Wrapped w).
Proof.
  destruct slv as [o|].
  - destruct (@_response_keeps_class mat rhs (_prepare dt herm sym (Some o)) o eq_refl)
      as [w [Hw _]]. eauto.
  - destruct (_response_attributes mat rhs (_prepare dt herm sym None)) as [_ [_ [_ Hw]]].
    destruct (@after_wrap_fresh P mat dt herm sym None) as [k Hk]; [left; reflexivity|].
    destruct (Hw _ Hk) as [w' [Hs _]]. eauto.
Qed.

Lemma _sensitivity_keeps mat rhs dfdv s :
  let s' := fst (_sensitivity mat rhs dfdv s) in
  dep_tol s' = dep_tol s /\ ishermitian s' = ishermitian s /\
  issymmetric s' = issymmetric s /\ issparse s' = issparse s /\
  iscomplex s' = iscomplex s /\ u s' = u s.
Proof.
  destruct s as [dt herm sym slv sp cx x0].
  unfold _sensitivity, bind, modify, attr, get, lift, ret; simpl.
  destruct slv as [o|]; simpl; [|repeat split].
  destruct (obj_adjoint o dfdv) as [[o' lam]|e]; simpl; [|repeat split].
  destruct sp as [[|]|]; simpl; [| |repeat split].
  - destruct cx as [cx|]; simpl; [|repeat split].
    destruct x0 as [x|]; simpl; [|repeat split].
    destruct (negb cx && (iscomplexobj x || iscomplexobj lam)); simpl; repeat split.
  - destruct x0 as [x|]; simpl; [|repeat split].
    destruct (Nat.ltb 1 (ndim x)); simpl.
    + destruct (einsum_iB_jB_ij (np_neg lam) (np_conj x)); simpl; [|repeat split].
      destruct cx as [[|]|]; simpl; repeat split.
    + destruct cx as [[|]|]; simpl; repeat split.
Qed.

Lemma _sensitivity_raises_unset mat rhs dfdv s :
  solver s = None \/ issparse s = None \/ iscomplex s = None \/ u s = None ->
  exists e, snd (_sensitivity mat rhs dfdv s) = Raise e.
Proof.
  destruct s as [dt herm sym slv sp cx x0]; simpl.
  unfold _sensitivity, bind, modify, attr, get, lift, ret; simpl.
  intros H.
  destruct slv as [o|]; simpl; [|eauto].
  destruct (obj_adjoint o dfdv) as [[o' lam]|e]; simpl; [|eauto].
  destruct sp as [[|]|]; simpl; [| |eauto].
  - destruct cx as [cx|]; simpl; [|eauto].
    destruct x0 as [x|]; simpl; [|eauto].
    destruct H as [H|[H|[H|H]]]; discriminate H.
  - destruct x0 as [x|]; simpl; [|eauto].
    destruct (Nat.ltb 1 (ndim x)); simpl.
    + destruct (einsum_iB_jB_ij (np_neg lam) (np_conj x)); simpl; [|eauto].
      destruct cx as [cx|]; simpl; [|eauto].
      destruct H as [H|[H|[H|H]]]; discriminate H.
    + destruct cx as [cx|]; simpl; [|eauto].
      destruct H as [H|[H|[H|H]]]; discriminate H.
Qed.

(** a backward pass that returns has read all four attributes *)
Lemma _sensitivity_ok_inv mat rhs dfdv s d db :
  snd (_sensitivity mat rhs dfdv s) = Ok (d, db) ->
  exists o o' sp cx x lam,
    solver s = Some o /\ issparse s = Some sp /\ iscomplex s = Some cx /\
    u s = Some x /\ obj_adjoint o dfdv = Ok (o', lam) /\
    matrix_sensitivity sp cx x lam = Ok d /\ db = rhs_sensitivity rhs lam.
Proof.
  intros H.
  destruct (solver s) as [o|] eqn:Hs.
  2: { destruct (@_sensitivity_raises_unset mat rhs dfdv s) as [e He]; [auto|].
       rewrite He in H; discriminate H. }
  destruct (issparse s) as [sp|] eqn:Hsp.
  2: { destruct (@_sensitivity_raises_unset mat rhs dfdv s) as [e He]; [auto|].
       rewrite He in H; discriminate H. }
  destruct (iscomplex s) as [cx|] eqn:Hcx.
  2: { destruct (@_sensitivity_raises_unset mat rhs dfdv s) as [e He]; [auto|].
       rewrite He in H; discriminate H. }
  destruct (u s) as [x|] eqn:Hu.
  2: { destruct (@_sensitivity_raises_unset mat rhs dfdv s) as [e He]; [auto 6|].
       rewrite He in H; discriminate H. }
  destruct (obj_adjoint o dfdv) as [[o' lam]|e] eqn:Ha.
  - rewrite (_sensitivity_steps mat rhs dfdv s Hs Hsp Hcx Hu Ha) in H. simpl in H.
    destruct (matrix_sensitivity sp cx x lam) as [d0|e] eqn:Hm; [|discriminate H].
    inversion H; subst. exists o, o', sp, cx, x, lam. repeat split; auto.
  - exfalso. destruct s as [dt herm sym slv sp0 cx0 x0]; simpl in *; subst.
    unfold _sensitivity, bind, modify, attr, get, lift, ret in H; simpl in H.
    rewrite Ha in H. discriminate H.
Qed.

End NodeMore.

(** X7.  A backward pass on a node that has made no forward pass raises:
    with no solver supplied, [self.solver] is [None] and the call of its
    [adjoint] method is an AttributeError that leaves the node as it was;
    with a supplied solver the adjoint solve is attempted and the pass
    fails at the latest on the missing attribute [issparse]. *)
Theorem backward_pass_needs_forward_pass (P : Pymodular) (N : SolverNumerics)
  (mat : matrix) (rhs dfdv : ndarray) (dt : Qc) (herm sym : option bool)
  (slv : option solver_obj) :
  (exists e, snd (_sensitivity mat rhs dfdv (_prepare dt herm sym slv)) = Raise e) /\
  _sensitivity mat rhs dfdv (_prepare dt herm sym None)
    = (_prepare dt herm sym None, Raise AttributeError).
Proof.
  split; [|reflexivity].
  apply _sensitivity_raises_unset. right; left; reflexivity.
Qed.

(** X8.  A solver supplied at construction is never replaced: the
    classifier is not consulted, a bare solver is wrapped once with the
    wrapper's default tolerance, and a supplied wrapper is kept with its
    own tolerance.  After the forward pass the node holds a wrapper around
    a solver of the supplied class, whatever the matrix is. *)
Theorem supplied_solver_is_kept (P : Pymodular) (N : SolverNumerics)
  (mat : matrix) (rhs : ndarray) (dt : Qc) (herm sym : option bool)
  (o : solver_obj) :
  exists w,
    solver (fst (_response mat rhs (_prepare dt herm sym (Some o)))) = Some (Wrapped w) /\
    kind (lda_solver w) = obj_kind o /\
    lda_tol w = match o with
                | Wrapped w0 => lda_tol w0
                | Plain _ => LDAWrapper_default_tol
                end.
Proof. now apply _response_keeps_class. Qed.

(** X9.  The solver is chosen once.  After the first forward pass the node
    holds a wrapped solver, and a second forward pass, on any matrix,
    keeps the class of that solver and the tolerance of the wrapper: the
    classifier is not run again when the matrix changes. *)
Theorem solver_is_chosen_once (P : Pymodular) (N : SolverNumerics)
  (mat1 mat2 : matrix) (rhs1 rhs2 : ndarray) (dt : Qc) (herm sym : option bool)
  (slv : option solver_obj) :
  exists w1 w2,
    solver (fst (_response mat1 rhs1 (_prepare dt herm sym slv))) = Some (Wrapped w1) /\
    solver (fst (_response mat2 rhs2
                   (fst (_response mat1 rhs1 (_prepare dt herm sym slv)))))
      = Some (Wrapped w2) /\
    kind (lda_solver w2) = kind (lda_solver w1) /\
    lda_tol w2 = lda_tol w1.
Proof.
  destruct (@_response_sets_solver P N mat1 rhs1 dt herm sym slv) as [w1 H1].
  destruct (@_response_keeps_class P N mat2 rhs2 _ _ H1) as [w2 [H2 [Hk Ht]]].
  exists w1, w2. auto.
Qed.

(** the diagonal solver chosen for diag(2,4) is still the one in use after
    a forward pass on the full matrix [[2,1],[1,2]] *)
Lemma diagonal_solver_survives_matrix_change (P : Pymodular) (N : SolverNumerics)
  (rhs2 : ndarray) :
  matrix_is_diagonal diag_2_4 = true ->
  exists w,
    solver (fst (_response spd_2_1_1_2 rhs2
                   (fst (_response diag_2_4 rhs_4_8
                           (_prepare dep_tol_default None None None)))))
      = Some (Wrapped w) /\
    kind (lda_solver w) = SolverDiagonal.
Proof.
  intros Hd.
  destruct (@_response_diagonal P N diag_2_4 rhs_4_8 dep_tol_default None None
              (Vec float64 [fl 2; fl 2]) eq_refl Hd) as [h Hr];
    [vm_compute; reflexivity | exact diag_2_4_solve |].
  rewrite Hr. cbn [fst].
  match goal with |- context [_response _ _ ?s] =>
    destruct (@_response_keeps_class P N spd_2_1_1_2 rhs2 s _ eq_refl)
      as [w [Hw [Hk _]]] end.
  exists w. split; [exact Hw|exact Hk].
Qed.

(** X10.  What a forward pass leaves in the node.  [issparse] and
    [iscomplex] are those of the matrix just given, even when the pass
    raises; [u] is the returned solution when the pass returns, and is
    left untouched when it raises, so that a node whose last forward pass
    failed still holds the solution of an earlier one. *)
Theorem forward_pass_attributes (P : Pymodular) (N : SolverNumerics)
  (mat : matrix) (rhs : ndarray) (s : LinSolve) :
  issparse (fst (_response mat rhs s)) = Some (sparse mat) /\
  iscomplex (fst (_response mat rhs s)) = Some (mat_iscomplex mat) /\
  match snd (_response mat rhs s) with
  | Ok x => u (fst (_response mat rhs s)) = Some x
  | Raise _ => u (fst (_response mat rhs s)) = u s
  end.
Proof.
  destruct (after_wrap_keeps mat s) as [Hu [Hsp Hcx]].
  rewrite _response_steps.
  destruct (after_wrap mat s) as [s1 [w|e]]; simpl in *; [|auto].
  destruct (lda_update w mat) as [w'|e]; simpl; [|auto].
  destruct (lda_solve w' rhs) as [x|e]; destruct s1; simpl in *; auto.
Qed.

(** X11.  A backward pass changes nothing in the node but the solver
    object (the wrapper's cache of adjoint solves), whether it returns or
    raises: the flags, [issparse], [iscomplex] and the forward solution
    [u] are kept, and the solver keeps its class.  Backward passes for
    several responses therefore all use the same forward solution. *)
Theorem backward_pass_keeps_forward_state (P : Pymodular) (N : SolverNumerics)
  (mat : matrix) (rhs dfdv : ndarray) (s : LinSolve) :
  dep_tol (fst (_sensitivity mat rhs dfdv s)) = dep_tol s /\
  ishermitian (fst (_sensitivity mat rhs dfdv s)) = ishermitian s /\
  issymmetric (fst (_sensitivity mat rhs dfdv s)) = issymmetric s /\
  issparse (fst (_sensitivity mat rhs dfdv s)) = issparse s /\
  iscomplex (fst (_sensitivity mat rhs dfdv s)) = iscomplex s /\
  u (fst (_sensitivity mat rhs dfdv s)) = u s /\
  option_map obj_kind (solver (fst (_sensitivity mat rhs dfdv s)))
    = option_map obj_kind (solver s).
Proof.
  destruct (_sensitivity_keeps mat rhs dfdv s) as [H1 [H2 [H3 [H4 [H5 H6]]]]].
  repeat (split; [assumption|]).
  destruct s as [dt herm sym slv sp cx x0].
  unfold _sensitivity, bind, modify, attr, get, lift, ret; simpl.
  destruct slv as [o|]; simpl; [|reflexivity].
  destruct (obj_adjoint o dfdv) as [[o' lam]|e] eqn:Ha; simpl; [|reflexivity].
  assert (Hk : obj_kind o' = obj_kind o).
  { destruct o as [k|w]; simpl in Ha.
    - destruct (solver_adjoint k dfdv); inversion Ha; reflexivity.
    - unfold lda_adjoint in Ha.
      destruct (lda_lookup (lda_tol w) dfdv (lda_adjoint_cache w)).
      + inversion Ha; reflexivity.
      + destruct (solver_adjoint (lda_solver w) dfdv); inversion Ha; reflexivity. }
  destruct sp as [[|]|]; simpl; [| |now rewrite Hk].
  - destruct cx as [cx|]; simpl; [|now rewrite Hk].
    destruct x0 as [x|]; simpl; [|now rewrite Hk].
    destruct (negb cx && (iscomplexobj x || iscomplexobj lam)); simpl; now rewrite Hk.
  - destruct x0 as [x|]; simpl; [|now rewrite Hk].
    destruct (Nat.ltb 1 (ndim x)); simpl.
    + destruct (einsum_iB_jB_ij (np_neg lam) (np_conj x)); simpl; [|now rewrite Hk].
      destruct cx as [[|]|]; simpl; now rewrite Hk.
    + destruct cx as [[|]|]; simpl; now rewrite Hk.
Qed.

Lemma matrix_sensitivity_real_typed (sp : bool) (x lam : ndarray) (d : dmat_t) :
  matrix_sensitivity sp false x lam = Ok d -> dmat_isreal d = true.
Proof.
  unfold matrix_sensitivity. destruct sp; simpl.
  - destruct (iscomplexobj x || iscomplexobj lam) eqn:E; intros H; inversion H; subst.
    + destruct lam, x; reflexivity.
    + apply orb_false_elim in E. destruct E as [Ex El].
      unfold iscomplexobj in *.
      destruct lam as [[|] ?|[|] ?], x as [[|] ?|[|] ?]; simpl in *;
        try discriminate; reflexivity.
  - destruct (if Nat.ltb 1 (ndim x)
              then einsum_iB_jB_ij (np_neg lam) (np_conj x)
              else Ok (np_outer (np_neg lam) (np_conj x))) as [a|e];
      intros H; inversion H; subst.
    destruct a; reflexivity.
Qed.

(** X12.  Real-valued inputs give real-typed gradients.  When the matrix is
    real-valued, every array of the returned matrix sensitivity (the dense
    array, or each vector of the dyad carrier) has a real dtype, even when
    the solution or the adjoint is complex; and when the right-hand side is
    real-valued so is its sensitivity. *)
Theorem real_inputs_give_real_typed_gradients (P : Pymodular) (N : SolverNumerics)
  (mat : matrix) (rhs dfdv : ndarray) (s : LinSolve) (d : dmat_t) (db : ndarray) :
  snd (_sensitivity mat rhs dfdv s) = Ok (d, db) ->
  (iscomplex s = Some false -> dmat_isreal d = true) /\
  (isrealobj rhs = true -> isrealobj db = true).
Proof.
  intros H.
  destruct (_sensitivity_ok_inv mat rhs dfdv s H)
    as [o [o' [sp [cx [x [lam [_ [_ [Hcx [_ [_ [Hm Hdb]]]]]]]]]]]].
  split.
  - intros Hre. rewrite Hre in Hcx. inversion Hcx; subst cx.
    eapply matrix_sensitivity_real_typed; eassumption.
  - intros Hr. subst db. unfold rhs_sensitivity. rewrite Hr.
    destruct lam; reflexivity.
Qed.

Lemma real_inputs_give_real_typed_gradients_witness :
  dmat_isreal (Dense (Mat float64 [[fl (-1); fl (-1)]; [fl 0; fl 0]])) = true /\
  isrealobj (Vec float64 [half; fl 0]) = true.
Proof.
  assert (E : snd (@_sensitivity diagonal_only diag_2_4 rhs_4_8 seed_1_0
                     (node_after_diag_2_4 false))
              = Ok (Dense (Mat float64 [[fl (-1); fl (-1)]; [fl 0; fl 0]]),
                    Vec float64 [half; fl 0])).
  { destruct (@_sensitivity_diagonal diagonal_only diag_2_4 rhs_4_8 seed_1_0
                (node_after_diag_2_4 false) diag_2_4 LDAWrapper_default_tol
                false false (Vec float64 [fl 2; fl 2]) (Vec float64 [half; fl 0])
                eq_refl eq_refl eq_refl eq_refl diag_2_4_adjoint) as [_ Hs].
    rewrite Hs, diag_2_4_matrix_sensitivity. reflexivity. }
  destruct (@real_inputs_give_real_typed_gradients
              (reference_package false false false) diagonal_only
              diag_2_4 rhs_4_8 seed_1_0 (node_after_diag_2_4 false) _ _ E) as [H1 H2].
  split; [apply H1; reflexivity | apply H2; reflexivity].
Defined.

Lemma real_outer_conj (L X : list complex) :
  Forall real_valued L -> Forall real_valued X ->
  map (map creal) (outer (map cneg L) (map cconj X)) = outer (map cneg L) X.
Proof.
  intros HL HX. unfold outer.
  induction HL as [|l L Hl HL IH]; [reflexivity|].
  simpl. f_equal; [|exact IH].
  clear IH HL. induction HX as [|x X Hx HX IHX]; [reflexivity|].
  simpl. f_equal; [|exact IHX].
  destruct l as [lr li], x as [xr xi]. unfold real_valued in *; simpl in *; subst.
  unfold creal, cmul, cneg, cconj, RtoC; simpl. f_equal; ring.
Qed.

(** X13.  For a real-valued matrix the sparse and the dense branch agree.
    Two nodes that differ only in [issparse], with a 1-D solution and
    adjoint (float64 arrays holding no imaginary parts), return the same
    rhs sensitivity, and the dyad carrier of the sparse node stands for
    exactly the dense array of the other, whether the solution and the
    adjoint are real or complex. *)
Theorem real_matrix_sparse_and_dense_agree (P : Pymodular) (N : SolverNumerics)
  (mat : matrix) (rhs dfdv : ndarray) (s1 s2 : LinSolve) (o o' : solver_obj)
  (dx dl : dtype) (x lam : list complex) :
  solver s1 = Some o -> solver s2 = Some o ->
  issparse s1 = Some true -> issparse s2 = Some false ->
  iscomplex s1 = Some false -> iscomplex s2 = Some false ->
  u s1 = Some (Vec dx x) -> u s2 = Some (Vec dx x) ->
  obj_adjoint o dfdv = Ok (o', Vec dl lam) ->
  well_typed dx x -> well_typed dl lam ->
  exists c m db,
    snd (_sensitivity mat rhs dfdv s1) = Ok (Dyad c, db) /\
    snd (_sensitivity mat rhs dfdv s2) = Ok (Dense (Mat float64 m), db) /\
    todense c = Some m.
Proof.
  intros Hs1 Hs2 Hsp1 Hsp2 Hc1 Hc2 Hu1 Hu2 Ha Wx Wl.
  rewrite (_sensitivity_steps mat rhs dfdv s1 Hs1 Hsp1 Hc1 Hu1 Ha).
  rewrite (_sensitivity_steps mat rhs dfdv s2 Hs2 Hsp2 Hc2 Hu2 Ha).
  cbn [snd]. rewrite matrix_sensitivity_dense_vector. cbv iota.
  change (np_real (np_outer (np_neg (Vec dl lam)) (np_conj (Vec dx x))))
    with (Mat float64 (map (map creal) (outer (map cneg lam) (map cconj x)))).
  destruct (dt_iscomplex dx || dt_iscomplex dl) eqn:E.
  - destruct (matrix_sensitivity_sparse_real dx dl x lam E) as [c [Hm [Ht _]]].
    rewrite Hm. do 3 eexists. split; [reflexivity|]. split; [reflexivity|exact Ht].
  - destruct (@matrix_sensitivity_sparse_plain false dx dl x lam E) as [Hm Ht].
    rewrite Hm. apply orb_false_elim in E. destruct E as [Ex El].
    assert (Hx : Forall real_valued x) by (apply Wx; destruct dx; [reflexivity|discriminate]).
    assert (Hl : Forall real_valued lam) by (apply Wl; destruct dl; [reflexivity|discriminate]).
    do 3 eexists. split; [reflexivity|]. split; [reflexivity|].
    rewrite Ht. f_equal. symmetry. now apply real_outer_conj.
Qed.

Lemma real_matrix_sparse_and_dense_agree_witness :
  exists c m db,
    snd (@_sensitivity diagonal_only diag_2_4 rhs_4_8 seed_1_0 (node_after_diag_2_4 true))
      = Ok (Dyad c, db) /\
    snd (@_sensitivity diagonal_only diag_2_4 rhs_4_8 seed_1_0 (node_after_diag_2_4 false))
      = Ok (Dense (Mat float64 m), db) /\
    todense c = Some m.
Proof.
  destruct (@_sensitivity_diagonal diagonal_only diag_2_4 rhs_4_8 seed_1_0
              (node_after_diag_2_4 false) diag_2_4 LDAWrapper_default_tol
              false false (Vec float64 [fl 2; fl 2]) (Vec float64 [half; fl 0])
              eq_refl eq_refl eq_refl eq_refl diag_2_4_adjoint) as [Ha _].
  apply (@real_matrix_sparse_and_dense_agree
           (reference_package false false false) diagonal_only
           diag_2_4 rhs_4_8 seed_1_0 (node_after_diag_2_4 true) (node_after_diag_2_4 false)
           _ _ float64 float64 [fl 2; fl 2] [half; fl 0]
           eq_refl eq_refl eq_refl eq_refl eq_refl eq_refl eq_refl eq_refl Ha).
  - intros _. repeat constructor.
  - intros _. repeat constructor.
Defined.

(** * Properties of the example script *)

Local Open Scope nat_scope.

Lemma every_second_tl (l : list nat) :
  match l with [] => [] | _ :: l'' => every_second l'' end = every_second (tl l).
Proof. destruct l; reflexivity. Qed.

Lemma every_second_pairs (f g : nat -> nat) (l : list nat) :
  slice_0_2 (flat_map (fun n => [f n; g n]) l) = map f l /\
  slice_1_2 (flat_map (fun n => [f n; g n]) l) = map g l.
Proof.
  unfold slice_0_2, slice_1_2.
  induction l as [|a l [IH0 IH1]]; [split; reflexivity|].
  cbn [flat_map app map tl every_second]. split.
  - now rewrite IH0.
  - rewrite every_second_tl. now rewrite IH1.
Qed.

Lemma np_tile_length (l : list nat) (k : nat) :
  length (np_tile l k) = k * length l.
Proof.
  unfold np_tile. induction k as [|k IH]; [reflexivity|].
  cbn [repeat concat]. rewrite length_app, IH. reflexivity.
Qed.

Lemma np_repeat_length (l : list nat) (k : nat) :
  length (np_repeat l k) = length l * k.
Proof.
  unfold np_repeat. induction l as [|a l IH]; [reflexivity|].
  cbn [flat_map]. rewrite length_app, repeat_length, IH. reflexivity.
Qed.

(** line 31: the x and y dofs of a list of nodes, interleaved *)
Lemma dofs_of_nodes (nodes : list nat) (k : nat) :
  length nodes = k ->
  np_add (np_repeat (map (fun n => n * 2) nodes) 2) (np_tile (np_arange 2) k)
  = Value (flat_map (fun n => [2 * n; 2 * n + 1]) nodes).
Proof.
  intros <-. unfold np_add.
  rewrite np_repeat_length, np_tile_length, length_map.
  change (length (np_arange 2)) with 2. rewrite Nat.eqb_refl. f_equal.
  unfold np_repeat, np_tile, np_arange.
  induction nodes as [|a l IH]; [reflexivity|].
  simpl in *. rewrite IH. f_equal; [lia|]. f_equal. lia.
Qed.

Lemma first_item_map (f : nat -> nat) (n : nat) :
  first_item (map f (seq 0 (n + 1))) = Value (f 0).
Proof. rewrite Nat.add_1_r. reflexivity. Qed.

Lemma last_item_map (f : nat -> nat) (n : nat) :
  last_item (map f (seq 0 (n + 1))) = Value (f n).
Proof.
  unfold last_item. rewrite Nat.add_1_r, seq_S, map_app, rev_app_distr. reflexivity.
Qed.

Lemma flat_map_map (f : nat -> list nat) (g : nat -> nat) (l : list nat) :
  flat_map f (map g l) = flat_map (fun j => f (g j)) l.
Proof. induction l as [|a l IH]; [reflexivity|]. simpl. now rewrite IH. Qed.

(** the script up to line 41, and what is left of it *)
Lemma script_groups_unfold (nx ny : nat) (D : Domain) :
  script_groups nx ny D =
  (u <- set_row (np_zeros (2 * nnodes D) 2) (input_dof D) (fl 1) ;;
   u <- set_item 2 u (output_dof D ny) 0 (fl 1) ;;
   u <- set_item 2 u (output_dof D ny) 1 (fl (-1)) ;;
   up <- take_rows u (prescribed D nx ny) ;;
   Value (mkGroups (left_x D ny) (left_y D ny) (right_xy D nx ny)
            (input_dof D) (output_dof D ny) (np_arange (2 * nnodes D))
            (prescribed D nx ny)
            (np_setdiff1d (np_arange (2 * nnodes D)) (prescribed D nx ny))
            (np_zeros (length (np_setdiff1d (np_arange (2 * nnodes D))
                                 (prescribed D nx ny))) 2)
            up))%np.
Proof.
  unfold script_groups.
  rewrite !dofs_of_nodes by (now rewrite length_map; unfold np_arange; rewrite length_seq).
  cbn [np_bind]. unfold np_arange.
  rewrite !flat_map_map.
  destruct (every_second_pairs (fun j => 2 * get_nodenumber D 0 j)
              (fun j => 2 * get_nodenumber D 0 j + 1) (seq 0 (ny + 1))) as [E0 E1].
  rewrite E0, E1.
  rewrite first_item_map, last_item_map. cbn [np_bind]. reflexivity.
Qed.

Lemma occurs_In (d : nat) (l : list nat) : occurs d l = true <-> In d l.
Proof.
  unfold occurs. rewrite existsb_exists. split.
  - intros [x [Hx E]]. apply Nat.eqb_eq in E. now subst.
  - intros H. exists d. split; [exact H|apply Nat.eqb_refl].
Qed.

Lemma np_unique_In (d : nat) (l : list nat) : In d (np_unique l) <-> In d l.
Proof.
  unfold np_unique. rewrite filter_In, in_seq, occurs_In. split; [tauto|].
  intros H. split; [|exact H]. split; [lia|].
  assert (F : Forall (fun k => k <= list_max l) l) by (apply list_max_le; lia).
  rewrite Forall_forall in F. specialize (F d H). lia.
Qed.

Lemma np_unique_NoDup (l : list nat) : NoDup (np_unique l).
Proof. apply NoDup_filter, seq_NoDup. Qed.

Lemma np_setdiff1d_In (d : nat) (a b : list nat) :
  In d (np_setdiff1d a b) <-> In d a /\ ~ In d b.
Proof.
  unfold np_setdiff1d. rewrite filter_In, np_unique_In.
  rewrite negb_true_iff, <- not_true_iff_false, occurs_In. tauto.
Qed.

Lemma np_setdiff1d_NoDup (a b : list nat) : NoDup (np_setdiff1d a b).
Proof. apply NoDup_filter, np_unique_NoDup. Qed.

Lemma imap_from_length {S T} (f : nat -> S -> T) (l : list S) :
  forall k, length (imap_from k f l) = length l.
Proof. induction l as [|x l IH]; intros k; simpl; [reflexivity|now rewrite IH]. Qed.

Lemma imap_from_nth {S T} (f : nat -> S -> T) (l : list S) (ds : S) (dt : T) :
  forall k d, d < length l ->
  nth d (imap_from k f l) dt = f (k + d) (nth d l ds).
Proof.
  induction l as [|x l IH]; intros k d Hd; simpl in *; [lia|].
  destruct d as [|d]; [now rewrite Nat.add_0_r|].
  rewrite IH by lia. f_equal. lia.
Qed.

Lemma list_update_length {T} (i : nat) (f : T -> T) (l : list T) :
  length (list_update i f l) = length l.
Proof. apply imap_from_length. Qed.

Lemma list_update_nth {T} (i : nat) (f : T -> T) (l : list T) (dflt : T) (d : nat) :
  d < length l ->
  nth d (list_update i f l) dflt
  = if Nat.eqb d i then f (nth d l dflt) else nth d l dflt.
Proof.
  intros Hd. unfold list_update, imap.
  now rewrite (imap_from_nth _ l dflt dflt 0 Hd).
Qed.

(** lines 45-50: the prescribed displacements *)
Lemma displacement_rows (n din dout : nat) (idx : list nat) :
  din < n -> dout < n -> Forall (fun d => d < n) idx ->
  (u <- set_row (np_zeros n 2) din (fl 1) ;;
   u <- set_item 2 u dout 0 (fl 1) ;;
   u <- set_item 2 u dout 1 (fl (-1)) ;;
   take_rows u idx)%np
  = Value (map (displacement_row din dout) idx).
Proof.
  intros Hin Hout Hidx.
  unfold set_row, set_item, take_rows, np_zeros.
  change (Nat.ltb 0 2) with true. change (Nat.ltb 1 2) with true.
  rewrite repeat_length.
  apply Nat.ltb_lt in Hin as Hin'. rewrite Hin'. cbn [np_bind].
  rewrite list_update_length, repeat_length.
  apply Nat.ltb_lt in Hout as Hout'. rewrite Hout'. cbn [np_bind andb].
  rewrite !list_update_length, repeat_length. rewrite Hout'.
  cbn [np_bind andb].
  rewrite !list_update_length, repeat_length.
  assert (F : forallb (fun d => Nat.ltb d n) idx = true).
  { apply forallb_forall. rewrite Forall_forall in Hidx.
    intros d Hd. apply Nat.ltb_lt. auto. }
  rewrite F. f_equal. apply map_ext_in. intros d Hd.
  rewrite Forall_forall in Hidx. specialize (Hidx d Hd).
  rewrite !list_update_nth
    by (rewrite ?list_update_length, repeat_length; exact Hidx).
  rewrite nth_repeat_lt by exact Hidx.
  unfold displacement_row.
  destruct (Nat.eqb d dout), (Nat.eqb d din); reflexivity.
Qed.

Lemma displacement_rows_fail (n din dout : nat) (idx : list nat) :
  ~ Forall (fun d => d < n) idx ->
  (u <- set_row (np_zeros n 2) din (fl 1) ;;
   u <- set_item 2 u dout 0 (fl 1) ;;
   u <- set_item 2 u dout 1 (fl (-1)) ;;
   take_rows u idx)%np
  = IndexError.
Proof.
  intros Hidx.
  unfold set_row, set_item, take_rows, np_zeros.
  change (Nat.ltb 0 2) with true. change (Nat.ltb 1 2) with true.
  rewrite repeat_length.
  destruct (Nat.ltb din n) eqn:Hin; [|reflexivity]. cbn [np_bind].
  rewrite list_update_length, repeat_length.
  destruct (Nat.ltb dout n) eqn:Hout; [|reflexivity].
  cbn [np_bind andb].
  rewrite !list_update_length, repeat_length. rewrite Hout.
  cbn [np_bind andb].
  rewrite !list_update_length, repeat_length.
  destruct (forallb (fun d => Nat.ltb d n) idx) eqn:F; [|reflexivity].
  exfalso. apply Hidx. apply Forall_forall. intros d Hd.
  rewrite forallb_forall in F. apply Nat.ltb_lt. auto.
Qed.

Lemma prescribed_In (D : Domain) (nx ny d : nat) :
  In d (prescribed D nx ny) <->
  (exists j, j <= ny /\
     (d = 2 * get_nodenumber D 0 j \/ d = 2 * get_nodenumber D nx j \/
      d = 2 * get_nodenumber D nx j + 1)) \/
  d = input_dof D \/ d = output_dof D ny.
Proof.
  unfold prescribed. rewrite np_unique_In, !in_app_iff.
  unfold left_x, right_xy. rewrite in_map_iff, in_flat_map. split.
  - intros [[j [E Hj]]|[[j [Hj Hd]]|[[E|[]]|[E|[]]]]]; auto.
    + apply in_seq in Hj. left. exists j. split; [lia|auto].
    + apply in_seq in Hj. left. exists j. split; [lia|].
      destruct Hd as [E|[E|[]]]; auto.
  - intros [[j [Hj [E|[E|E]]]]|[E|E]]; auto.
    + left. exists j. split; [auto|apply in_seq; lia].
    + right; left. exists j. split; [apply in_seq; lia|]. left; auto.
    + right; left. exists j. split; [apply in_seq; lia|]. right; left; auto.
    + right; right; left; left; auto.
    + right; right; right; left; auto.
Qed.

Lemma prescribed_in_range (D : Domain) (nx ny : nat) :
  Forall (fun d => d < 2 * nnodes D) (prescribed D nx ny) <->
  (forall j, j <= ny ->
     get_nodenumber D 0 j < nnodes D /\ get_nodenumber D nx j < nnodes D).
Proof.
  rewrite Forall_forall. split.
  - intros H j Hj. split.
    + assert (I : In (2 * get_nodenumber D 0 j) (prescribed D nx ny))
        by (apply prescribed_In; left; exists j; auto).
      apply H in I. lia.
    + assert (I : In (2 * get_nodenumber D nx j) (prescribed D nx ny))
        by (apply prescribed_In; left; exists j; auto).
      apply H in I. lia.
  - intros H d Hd. apply prescribed_In in Hd.
    destruct Hd as [[j [Hj [E|[E|E]]]]|[E|E]]; subst d.
    + destruct (H j Hj); lia.
    + destruct (H j Hj); lia.
    + destruct (H j Hj); lia.
    + unfold input_dof. destruct (H 0 (Nat.le_0_l ny)); lia.
    + unfold output_dof. destruct (H ny (Nat.le_refl ny)); lia.
Qed.

Lemma script_groups_value (nx ny : nat) (D : Domain) :
  Forall (fun d => d < 2 * nnodes D) (prescribed D nx ny) ->
  script_groups nx ny D =
  Value (mkGroups (left_x D ny) (left_y D ny) (right_xy D nx ny)
           (input_dof D) (output_dof D ny) (np_arange (2 * nnodes D))
           (prescribed D nx ny)
           (np_setdiff1d (np_arange (2 * nnodes D)) (prescribed D nx ny))
           (np_zeros (length (np_setdiff1d (np_arange (2 * nnodes D))
                                (prescribed D nx ny))) 2)
           (map (displacement_row (input_dof D) (output_dof D ny))
                (prescribed D nx ny))).
Proof.
  intros F. pose proof F as F'. rewrite Forall_forall in F'.
  assert (Hin : input_dof D < 2 * nnodes D)
    by (apply F', prescribed_In; auto).
  assert (Hout : output_dof D ny < 2 * nnodes D)
    by (apply F', prescribed_In; auto).
  pose proof (displacement_rows Hin Hout F) as E.
  rewrite script_groups_unfold.
  unfold set_row, set_item in *.
  destruct (Nat.ltb (input_dof D) (length (np_zeros (2 * nnodes D) 2)));
    cbn [np_bind] in *; [|discriminate E].
  match type of E with
  | context [if ?c then _ else _] => destruct c; cbn [np_bind] in *; [|discriminate E]
  end.
  match type of E with
  | context [if ?c then _ else _] => destruct c; cbn [np_bind] in *; [|discriminate E]
  end.
  rewrite E. reflexivity.
Qed.

Lemma script_groups_index_error (nx ny : nat) (D : Domain) :
  ~ Forall (fun d => d < 2 * nnodes D) (prescribed D nx ny) ->
  script_groups nx ny D = IndexError.
Proof.
  intros F.
  pose proof (displacement_rows_fail (input_dof D) (output_dof D ny) F) as E.
  rewrite script_groups_unfold.
  unfold set_row, set_item in *.
  destruct (Nat.ltb (input_dof D) (length (np_zeros (2 * nnodes D) 2)));
    cbn [np_bind] in *; [|reflexivity].
  match type of E with
  | context [if ?c then _ else _] => destruct c; cbn [np_bind] in *; [|reflexivity]
  end.
  match type of E with
  | context [if ?c then _ else _] => destruct c; cbn [np_bind] in *; [|reflexivity]
  end.
  rewrite E. reflexivity.
Qed.

Lemma in_range_dec (D : Domain) (nx ny : nat) :
  {Forall (fun d => d < 2 * nnodes D) (prescribed D nx ny)} +
  {~ Forall (fun d => d < 2 * nnodes D) (prescribed D nx ny)}.
Proof. apply Forall_dec. intros d. apply lt_dec. Qed.

Lemma script_groups_value_inv (nx ny : nat) (D : Domain) (g : dof_groups) :
  script_groups nx ny D = Value g ->
  Forall (fun d => d < 2 * nnodes D) (prescribed D nx ny) /\
  g = mkGroups (left_x D ny) (left_y D ny) (right_xy D nx ny)
        (input_dof D) (output_dof D ny) (np_arange (2 * nnodes D))
        (prescribed D nx ny)
        (np_setdiff1d (np_arange (2 * nnodes D)) (prescribed D nx ny))
        (np_zeros (length (np_setdiff1d (np_arange (2 * nnodes D))
                             (prescribed D nx ny))) 2)
        (map (displacement_row (input_dof D) (output_dof D ny))
             (prescribed D nx ny)).
Proof.
  intros H. destruct (in_range_dec D nx ny) as [F|F].
  - split; [exact F|]. rewrite (@script_groups_value nx ny D F) in H. now inversion H.
  - rewrite (@script_groups_index_error nx ny D F) in H. discriminate H.
Qed.

(** X14.  The dof groups of the script.  When the script gets past line 50,
    the x dofs of the left edge are the even numbers [2 n] and the y dofs
    the odd numbers [2 n + 1] of its nodes [n], in the order of the nodes;
    the dofs of the right edge are both dofs of each of its nodes; the
    input dof is the y dof of the first node of the left edge and the
    output dof the y dof of its last node. *)
Theorem script_dof_layout (nx ny : nat) (D : Domain) (g : dof_groups) :
  script_groups nx ny D = Value g ->
  dofs_left_x g = map (fun j => 2 * get_nodenumber D 0 j) (seq 0 (ny + 1)) /\
  dofs_left_y g = map (fun j => 2 * get_nodenumber D 0 j + 1) (seq 0 (ny + 1)) /\
  dofs_right g =
    flat_map (fun j => [2 * get_nodenumber D nx j; 2 * get_nodenumber D nx j + 1])
             (seq 0 (ny + 1)) /\
  dof_input g = 2 * get_nodenumber D 0 0 + 1 /\
  dof_output g = 2 * get_nodenumber D 0 ny + 1.
Proof.
  intros H. apply script_groups_value_inv in H. destruct H as [_ ->].
  repeat split.
Qed.

(** X15.  Free and prescribed dofs partition the dofs.  When the script
    gets past line 50, neither array has a repeated entry, a dof below
    [2 * nnodes] is free exactly when it is not prescribed, all entries of
    both arrays are below [2 * nnodes], and their sizes add up to
    [2 * nnodes]; the input and the output dof are prescribed; [ff] has one
    row per free dof and [up] one row per prescribed dof. *)
Theorem free_and_prescribed_partition (nx ny : nat) (D : Domain) (g : dof_groups) :
  script_groups nx ny D = Value g ->
  NoDup (free_dofs g) /\ NoDup (prescribed_dofs g) /\
  (forall d, In d (free_dofs g) <-> d < 2 * nnodes D /\ ~ In d (prescribed_dofs g)) /\
  (forall d, In d (prescribed_dofs g) -> d < 2 * nnodes D) /\
  In (dof_input g) (prescribed_dofs g) /\ In (dof_output g) (prescribed_dofs g) /\
  length (free_dofs g) + length (prescribed_dofs g) = 2 * nnodes D /\
  length (ff g) = length (free_dofs g) /\ length (up g) = length (prescribed_dofs g).
Proof.
  intros H. apply script_groups_value_inv in H. destruct H as [F ->].
  cbn [free_dofs prescribed_dofs dof_input dof_output ff up].
  rewrite Forall_forall in F.
  assert (Hfree : forall d, In d (np_setdiff1d (np_arange (2 * nnodes D))
                                    (prescribed D nx ny))
                   <-> d < 2 * nnodes D /\ ~ In d (prescribed D nx ny)).
  { intros d. rewrite np_setdiff1d_In. unfold np_arange. rewrite in_seq.
    split; intros [H1 H2]; (split; [lia|exact H2]). }
  split; [apply np_setdiff1d_NoDup|].
  split; [apply np_unique_NoDup|].
  split; [exact Hfree|]. split; [exact F|].
  split; [apply prescribed_In; auto|]. split; [apply prescribed_In; auto|].
  split; [|split; [unfold np_zeros; apply repeat_length|apply length_map]].
  rewrite <- length_app.
  transitivity (length (seq 0 (2 * nnodes D))); [|apply length_seq].
  apply Permutation_length, NoDup_Permutation.
  - apply NoDup_app; [apply np_setdiff1d_NoDup|apply np_unique_NoDup|].
    intros d Hd. apply Hfree in Hd. tauto.
  - apply seq_NoDup.
  - intros d. rewrite in_app_iff, in_seq, Hfree. split.
    + intros [[H1 _]|H1]; [lia|]. apply F in H1. lia.
    + intros [_ H1]. destruct (in_dec Nat.eq_dec d (prescribed D nx ny)); [right|left]; auto.
Qed.

(** X16.  The prescribed displacements.  When every node of the left and
    of the right edge has a number below [nnodes], the script gets past
    line 50, and [up] holds, for each prescribed dof in turn, the row
    [1, -1] for the output dof, [1, 1] for the input dof when it is not
    also the output dof, and [0, 0] for every other dof. *)
Theorem script_prescribed_displacements (nx ny : nat) (D : Domain) :
  (forall j, j <= ny ->
     get_nodenumber D 0 j < nnodes D /\ get_nodenumber D nx j < nnodes D) ->
  exists g,
    script_groups nx ny D = Value g /\
    up g = map (fun d => if Nat.eqb d (dof_output g) then [fl 1; fl (-1)]
                         else if Nat.eqb d (dof_input g) then [fl 1; fl 1]
                         else [c0; c0])
               (prescribed_dofs g).
Proof.
  intros H. apply prescribed_in_range in H.
  eexists. split; [apply (@script_groups_value nx ny D H)|reflexivity].
Qed.

(** X17.  The script never fails on the shapes of its arrays, and it fails
    with an IndexError exactly when some node of the left or of the right
    edge has a number that is not below [nnodes]. *)
Theorem script_index_error_iff (nx ny : nat) (D : Domain) :
  script_groups nx ny D <> ShapeError /\
  (script_groups nx ny D = IndexError <->
   exists j, j <= ny /\
     (nnodes D <= get_nodenumber D 0 j \/ nnodes D <= get_nodenumber D nx j)).
Proof.
  destruct (in_range_dec D nx ny) as [F|F].
  - rewrite (@script_groups_value nx ny D F). split; [discriminate|].
    split; [discriminate|].
    intros [j [Hj Hn]].
    pose proof (proj1 (prescribed_in_range D nx ny) F) as F'.
    destruct (F' j Hj). lia.
  - rewrite (@script_groups_index_error nx ny D F). split; [discriminate|].
    split; [|reflexivity]. intros _.
    apply neg_Forall_Exists_neg in F; [|intros d; apply lt_dec].
    apply Exists_exists in F. destruct F as [d [Hd Hn]].
    apply prescribed_In in Hd.
    destruct Hd as [[j [Hj [E|[E|E]]]]|[E|E]]; subst d.
    + exists j. split; [exact Hj|]. left. lia.
    + exists j. split; [exact Hj|]. right. lia.
    + exists j. split; [exact Hj|]. right. lia.
    + exists 0. split; [lia|]. left. unfold input_dof in Hn. lia.
    + exists ny. split; [lia|]. left. unfold output_dof in Hn. lia.
Qed.

Lemma grid_2_1_in_range :
  Forall (fun d => d < 2 * nnodes (grid 2 1)) (prescribed (grid 2 1) 2 1).
Proof.
  apply Forall_forall. intros d Hd. apply Nat.ltb_lt. revert d Hd.
  apply forallb_forall. vm_compute. reflexivity.
Qed.

Lemma script_dof_layout_witness :
  exists g,
    script_groups 2 1 (grid 2 1) = Value g /\
    dofs_left_x g = [0; 6] /\ dofs_left_y g = [1; 7] /\
    dofs_right g = [4; 5; 10; 11] /\ dof_input g = 1 /\ dof_output g = 7.
Proof.
  pose proof (@script_groups_value 2 1 (grid 2 1) grid_2_1_in_range) as E.
  eexists. split; [exact E|].
  destruct (@script_dof_layout 2 1 (grid 2 1) _ E) as [H1 [H2 [H3 [H4 H5]]]].
  rewrite H1, H2, H3, H4, H5. repeat split.
Defined.

Lemma free_and_prescribed_partition_witness :
  exists g,
    script_groups 2 1 (grid 2 1) = Value g /\
    prescribed_dofs g = [0; 1; 4; 5; 6; 7; 10; 11] /\
    free_dofs g = [2; 3; 8; 9] /\
    length (free_dofs g) + length (prescribed_dofs g) = 2 * nnodes (grid 2 1).
Proof.
  pose proof (@script_groups_value 2 1 (grid 2 1) grid_2_1_in_range) as E.
  eexists. split; [exact E|].
  split; [vm_compute; reflexivity|]. split; [vm_compute; reflexivity|].
  apply (@free_and_prescribed_partition 2 1 (grid 2 1) _ E).
Defined.

Lemma script_prescribed_displacements_witness :
  exists g,
    script_groups nx ny (grid nx ny) = Value g /\
    up g = map (fun d => if Nat.eqb d (dof_output g) then [fl 1; fl (-1)]
                         else if Nat.eqb d (dof_input g) then [fl 1; fl 1]
                         else [c0; c0])
               (prescribed_dofs g).
Proof.
  apply (@script_prescribed_displacements nx ny (grid nx ny)).
  intros j Hj. unfold grid, nx, ny in *. simpl. lia.
Defined.
